(** * Shared interactive sessions of the teleport SSH server (srv/sess.go)

    A shallow embedding of the session registry, the sessions, their
    parties and the fan-out writer of [srv/sess.go], and the properties
    of the design document checked against it.

    Conventions of the embedding.
    - Go pointers to sessions are addresses into a heap of session
      objects; the registry table maps a session id to such an address,
      exactly as [map[string]*session] does.  A session object that is
      never inserted into the table stays in the heap, unreachable from
      the table.
    - A Go [error] result is an [option error]; [None] is [nil].
    - The handles a method is given (connection, channel, request,
      context) are valid objects; the request is only logged and is left
      out.
    - The collaborators that live outside this file (the pseudo terminal,
      the connection context, the SSH channel, [uuid.New]) are not
      executed: every call made to them is appended to a trace, and the
      answers they give are inputs of the operation that asks for them.
    - [for ... range m] over a Go map visits the entries in an order the
      language leaves open: a method with such a loop takes the order of
      the visit as an argument [range], and the theorems hold for every
      order that is a permutation of the entries.
    - A method runs to completion before the next one starts (the registry
      lock); the goroutines a method spawns are recorded, not run.
    - Log lines are left out, and so is the command line handed to
      [run] (the shell of the server with [TERM] and [HOME]); neither has
      an effect on the state. *)

From Stdlib Require Import ZArith.
From stdpp Require Import base option list strings gmap fin_maps.

Open Scope Z_scope.
Open Scope nat_scope.
Open Scope string_scope.
Open Scope list_scope.

(** ** Data *)

Definition bytes := list Byte.byte.

(** [len(p)] as a Go [int]. *)
Definition len (p : bytes) : Z := Z.of_nat (length p).

(** Go [error] values: [io.ErrShortWrite], the errors this file builds with
    [fmt.Errorf], and the errors of the collaborators. *)
Inductive error :=
| ErrShortWrite
| Errorf (msg : string)
| External (code : nat).

(** Handles of the objects owned by other packages. *)
Definition term := nat.        (* *term *)
Definition ctx := nat.         (* *ctx *)
Definition Channel := nat.     (* ssh.Channel *)
Definition ServerConn := nat.  (* *ssh.ServerConn *)
Definition loc := nat.         (* *session *)

(** Modelled from the spec: the type [execResult] is declared outside
    [sess.go]; the design document gives it as [{exitCode int, error}]. *)
Record execResult := { exitCode : Z; exitError : option error }.

(** type party struct *)
Record party := {
  p_id : string;
  p_s : loc;
  p_sconn : ServerConn;
  p_ch : Channel;
  p_ctx : ctx
}.

(** The two kinds of [io.Writer] this file registers with a [multiWriter]:
    the capture [bytes.Buffer] that [start] allocates for a session, and
    a party. *)
Inductive ioWriter :=
| Buffer (owner : loc)
| Party (p : party).

(** type multiWriter struct *)
Record multiWriter := { writers : gmap string ioWriter }.

(** type session struct; the field [r] is the one registry of the state,
    and [eid], the event id copied from a context, is kept as the context
    it was copied from. *)
Record session := {
  s_id : string;
  s_eid : option ctx;
  s_writer : multiWriter;
  s_parties : gmap string party;
  s_t : option term
}.

(** The background tasks a session spawns. *)
Inductive pump :=
| TermToWriter (s : loc)               (* io.Copy(s.writer, s.t.pty) *)
| ExitWait (s : loc)                   (* collectStatus(cmd, cmd.Wait()) *)
| ChanToTerm (s : loc) (p : string).   (* io.Copy(s.t.pty, p.ch) *)

(** Calls made to the collaborators, in the order they are made. *)
Inductive event :=
| CtxSetTerm (c : ctx) (t : option term)    (* ctx.setTerm(t) *)
| CtxAddCloser (c : ctx) (p : party)        (* ctx.addCloser(p) *)
| CtxSendResult (c : ctx) (r : execResult)  (* ctx.sendResult(r) *)
| NewTerm (r : term + error)                (* newTerm() and what it gave *)
| TermRun (t : term)                        (* t.run(cmd) *)
| TermClose (t : term)                      (* t.Close() *)
| SinkWrite (w : ioWriter) (p : bytes)      (* w.Write(p) *)
| Go (g : pump).                            (* go func() { ... }() *)

(** The state: the registry table, the session objects, the inherited
    terminal of each connection context ([getTerm]; absent is [nil]), and
    the trace. *)
Record state := {
  sessions : gmap string loc;
  heap : list session;
  ctx_term : gmap ctx term;
  trace : list event
}.

(** What the collaborators answer during one [newShell] or [joinShell]. *)
Record answers := {
  uuid_New : string;              (* uuid.New() *)
  newTerm : term + error;         (* newTerm() *)
  run : option error              (* s.t.run(cmd) *)
}.

(** ** Field updates *)

Definition set_sessions (f : gmap string loc → gmap string loc) (st : state) : state :=
  {| sessions := f (sessions st); heap := heap st;
     ctx_term := ctx_term st; trace := trace st |}.

Definition set_heap (f : list session → list session) (st : state) : state :=
  {| sessions := sessions st; heap := f (heap st);
     ctx_term := ctx_term st; trace := trace st |}.

Definition set_ctx_term (f : gmap ctx term → gmap ctx term) (st : state) : state :=
  {| sessions := sessions st; heap := heap st;
     ctx_term := f (ctx_term st); trace := trace st |}.

Definition set_trace (f : list event → list event) (st : state) : state :=
  {| sessions := sessions st; heap := heap st;
     ctx_term := ctx_term st; trace := f (trace st) |}.

Definition set_eid (e : option ctx) (s : session) : session :=
  {| s_id := s_id s; s_eid := e; s_writer := s_writer s;
     s_parties := s_parties s; s_t := s_t s |}.

Definition set_writer (f : multiWriter → multiWriter) (s : session) : session :=
  {| s_id := s_id s; s_eid := s_eid s; s_writer := f (s_writer s);
     s_parties := s_parties s; s_t := s_t s |}.

Definition set_parties (f : gmap string party → gmap string party) (s : session) : session :=
  {| s_id := s_id s; s_eid := s_eid s; s_writer := s_writer s;
     s_parties := f (s_parties s); s_t := s_t s |}.

Definition set_t (t : option term) (s : session) : session :=
  {| s_id := s_id s; s_eid := s_eid s; s_writer := s_writer s;
     s_parties := s_parties s; s_t := t |}.

(** ** The monad of the methods

    A method transforms the state and returns a value; [None] is the Go
    runtime panic of a dereference of an address that holds no object. *)

Definition M (A : Type) : Type := state → option (A * state).

#[global] Instance M_ret : MRet M := λ A a st, Some (a, st).

#[global] Instance M_bind : MBind M := λ A B f m st,
  match m st with
  | Some (a, st') => f a st'
  | None => None
  end.

Definition panic {A} : M A := λ _, None.

Definition emit (e : event) : M unit :=
  λ st, Some (tt, set_trace (λ tr, tr ++ [e]) st).

(** Read of the object at [s]. *)
Definition deref (s : loc) : M session :=
  λ st, match heap st !! s with
        | Some o => Some (o, st)
        | None => None
        end.

(** Update of the object at [s] in place. *)
Definition assign (s : loc) (f : session → session) : M unit :=
  λ st, match heap st !! s with
        | Some o => Some (tt, set_heap (λ h, <[s := f o]> h) st)
        | None => None
        end.

(** [&session{...}] *)
Definition alloc (o : session) : M loc :=
  λ st, Some (length (heap st), set_heap (λ h, h ++ [o]) st).

(** Modelled from the spec: [ctx.getTerm] and [ctx.setTerm] are declared
    outside [sess.go]; the context carries an optional inherited terminal
    handle that can be read and replaced. *)
Definition ctx_getTerm (c : ctx) : M (option term) :=
  λ st, Some (ctx_term st !! c, st).

Definition ctx_setTerm (c : ctx) (t : option term) : M unit :=
  λ st, Some (tt, set_trace (λ tr, tr ++ [CtxSetTerm c t])
                    (set_ctx_term (λ m, match t with
                                        | Some t' => <[c := t']> m
                                        | None => delete c m
                                        end) st)).

(** ** multiWriter *)

Definition newMultiWriter : multiWriter := {| writers := ∅ |}.

Definition multiWriter_addWriter (id : string) (w : ioWriter) (m : multiWriter) : multiWriter :=
  {| writers := <[id := w]> (writers m) |}.

Definition multiWriter_deleteWriter (id : string) (m : multiWriter) : multiWriter :=
  {| writers := delete id (writers m) |}.

Section Sinks.
(** What [ch.Write(p)] returns on an SSH channel. *)
Variable chanWrite : Channel → bytes → Z * option error.

(** func (p *party) Write(bytes []byte) (int, error) *)
Definition party_Write (p : party) (b : bytes) : Z * option error :=
  chanWrite (p_ch p) b.

(** [w.Write(p)] on a registered sink; a [bytes.Buffer] takes the whole
    slice and never fails. *)
Definition ioWriter_Write (w : ioWriter) (b : bytes) : Z * option error :=
  match w with
  | Buffer _ => (len b, None)
  | Party q => party_Write q b
  end.

(** The loop of [Write] over the entries still to visit. *)
Fixpoint Write_loop (ord : list (string * ioWriter)) (p : bytes)
  : M (Z * option error) :=
  match ord with
  | [] => mret (len p, None)
  | (_, w) :: rest =>
      emit (SinkWrite w p) ;;
      match ioWriter_Write w p with
      | (n, Some err) => mret (n, Some err)
      | (n, None) =>
          if negb (n =? len p)%Z then mret (n, Some ErrShortWrite)
          else Write_loop rest p
      end
  end.

(** func (t *multiWriter) Write(p []byte) (n int, err error); [range]
    gives the order in which [t.writers] is visited. *)
Definition multiWriter_Write (t : multiWriter)
    (range : gmap string ioWriter → list (string * ioWriter)) (p : bytes)
  : M (Z * option error) :=
  Write_loop (range (writers t)) p.
End Sinks.

(** ** party and session *)

(** func newParty(s *session, sconn, ch, ctx) *party, with the fresh id
    [uuid.New()] gave. *)
Definition newParty (s : loc) (sconn : ServerConn) (ch : Channel) (c : ctx)
    (uuid : string) : party :=
  {| p_id := uuid; p_s := s; p_sconn := sconn; p_ch := ch; p_ctx := c |}.

(** func newSession(id string, r *sessionRegistry) *session *)
Definition newSession (id : string) : M loc :=
  alloc {| s_id := id; s_eid := None; s_writer := newMultiWriter;
           s_parties := ∅; s_t := None |}.

(** func (s *session) Close() error *)
Definition session_Close (s : loc) (closed : option error) : M (option error) :=
  o ← deref s;
  match s_t o with
  | Some t => emit (TermClose t) ;; mret closed
  | None => mret None
  end.

(** func (s *session) addParty(p *party) *)
Definition session_addParty (s : loc) (p : party) : M unit :=
  assign s (set_parties (λ m, <[p_id p := p]> m)) ;;
  assign s (set_writer (multiWriter_addWriter (p_id p) (Party p))) ;;
  emit (CtxAddCloser (p_ctx p) p) ;;
  emit (Go (ChanToTerm s (p_id p))).

(** func (s *session) start(sconn, ch, ctx) error *)
Definition session_start (s : loc) (sconn : ServerConn) (ch : Channel) (c : ctx)
    (a : answers) : M (option error) :=
  assign s (set_eid (Some c)) ;;
  let p := newParty s sconn ch c (uuid_New a) in
  inherited ← ctx_getTerm (p_ctx p);
  failed ← match inherited with
           | Some _ =>
               t ← ctx_getTerm (p_ctx p);
               assign s (set_t t) ;;
               ctx_setTerm (p_ctx p) None ;;
               mret None
           | None =>
               emit (NewTerm (newTerm a)) ;;
               match newTerm a with
               | inl t => assign s (set_t (Some t)) ;; mret None
               | inr err => assign s (set_t None) ;; mret (Some err)
               end
           end;
  match failed with
  | Some err => mret (Some err)
  | None =>
      o ← deref s;
      match s_t o with
      | None => panic
      | Some t =>
          emit (TermRun t) ;;
          match run a with
          | Some err => mret (Some err)
          | None =>
              assign s (set_writer (multiWriter_addWriter "capture" (Buffer s))) ;;
              session_addParty s p ;;
              emit (Go (TermToWriter s)) ;;
              emit (Go (ExitWait s)) ;;
              mret None
          end
      end
  end.

(** The loop of [broadcastResult] over the parties still to visit. *)
Fixpoint broadcastResult_loop (ord : list (string * party)) (r : execResult)
  : M unit :=
  match ord with
  | [] => mret tt
  | (_, p) :: rest =>
      emit (CtxSendResult (p_ctx p) r) ;;
      broadcastResult_loop rest r
  end.

(** func (s *session) broadcastResult(r execResult); [range] gives the
    order in which [s.parties] is visited. *)
Definition session_broadcastResult (s : loc)
    (range : gmap string party → list (string * party)) (r : execResult)
  : M unit :=
  o ← deref s;
  broadcastResult_loop (range (s_parties o)) r.

(** func (s *session) leave(id string) error *)
Definition session_leave (s : loc) (id : string) : M (option error) :=
  o ← deref s;
  match s_parties o !! id with
  | None => mret (Some (Errorf ("failed to find party: " +:+ id)))
  | Some p =>
      assign s (set_parties (λ m, delete (p_id p) m)) ;;
      assign s (set_writer (multiWriter_deleteWriter (p_id p))) ;;
      mret None
  end.

(** func (s *session) join(sconn, ch, req, ctx), returning the party and a nil error *)
Definition session_join (s : loc) (sconn : ServerConn) (ch : Channel) (c : ctx)
    (a : answers) : M (party * option error) :=
  let p := newParty s sconn ch c (uuid_New a) in
  session_addParty s p ;;
  mret (p, None).

(** ** sessionRegistry *)

(** func newSessionRegistry(srv *Server) *sessionRegistry *)
Definition newSessionRegistry : state :=
  {| sessions := ∅; heap := []; ctx_term := ∅; trace := [] |}.

(** func (s *sessionRegistry) findSession(id string), returning the session if found *)
Definition sessionRegistry_findSession (id : string) : M (option loc) :=
  λ st, Some (sessions st !! id, st).

(** [s.sessions[id] = sess] and [delete(s.sessions, id)] *)
Definition table_insert (id : string) (sess : loc) : M unit :=
  λ st, Some (tt, set_sessions (λ m, <[id := sess]> m) st).

Definition table_delete (id : string) : M unit :=
  λ st, Some (tt, set_sessions (λ m, delete id m) st).

(** func (s *sessionRegistry) newShell(sid, sconn, ch, req, ctx) error *)
Definition sessionRegistry_newShell (sid : string) (sconn : ServerConn)
    (ch : Channel) (c : ctx) (a : answers) : M (option error) :=
  sess ← newSession sid;
  failed ← session_start sess sconn ch c a;
  match failed with
  | Some err => mret (Some err)
  | None =>
      o ← deref sess;
      table_insert (s_id o) sess ;;
      mret None
  end.

(** func (s *sessionRegistry) joinShell(sid, sconn, ch, req, ctx) error *)
Definition sessionRegistry_joinShell (sid : string) (sconn : ServerConn)
    (ch : Channel) (c : ctx) (a : answers) : M (option error) :=
  found ← sessionRegistry_findSession sid;
  match found with
  | None => sessionRegistry_newShell sid sconn ch c a
  | Some sess => session_join sess sconn ch c a ;; mret None
  end.

(** func (s *sessionRegistry) leaveShell(sid, pid string) error; [closed]
    is what the terminal's [Close] answers if it is called. *)
Definition sessionRegistry_leaveShell (sid pid : string) (closed : option error)
  : M (option error) :=
  found ← sessionRegistry_findSession sid;
  match found with
  | None => mret (Some (Errorf ("session " +:+ sid +:+ " not found")))
  | Some sess =>
      failed ← session_leave sess pid;
      match failed with
      | Some err => mret (Some err)
      | None =>
          o ← deref sess;
          if negb (size (s_parties o) =? 0)%nat then mret None
          else
            table_delete (s_id o) ;;
            failed' ← session_Close sess closed;
            match failed' with
            | Some err => mret (Some err)
            | None => mret None
            end
      end
  end.

(** func (p *party) Close() error: the party leaves the session it points
    to, through the registry, under the id of that session. *)
Definition party_Close (p : party) (closed : option error) : M (option error) :=
  o ← deref (p_s p);
  sessionRegistry_leaveShell (s_id o) (p_id p) closed.

(** func (s *sessionRegistry) broadcastResult(sid string, r execResult) error;
    [range] gives the order in which the parties of the session are visited. *)
Definition sessionRegistry_broadcastResult (sid : string) (r : execResult)
    (range : gmap string party → list (string * party)) : M (option error) :=
  found ← sessionRegistry_findSession sid;
  match found with
  | None => mret (Some (Errorf ("session " +:+ sid +:+ " not found")))
  | Some sess =>
      session_broadcastResult sess range r ;;
      mret None
  end.

(** ** The join subsystem *)

Definition Server := nat.      (* *Server *)

(** type joinSubsys struct *)
Record joinSubsys := { j_srv : Server; j_sid : string }.

(** Go's [strings.HasPrefix] and [strings.TrimPrefix]. *)
Definition strings_HasPrefix (s prefix : string) : bool :=
  (String.length prefix <=? String.length s)%nat
  && String.eqb (String.substring 0 (String.length prefix) s) prefix.

Definition strings_TrimPrefix (s prefix : string) : string :=
  if strings_HasPrefix s prefix
  then String.substring (String.length prefix) (String.length s - String.length prefix) s
  else s.

(** func parseJoinSubsys(name string, srv *Server), returning the subsystem
    and an error *)
Definition parseJoinSubsys (name : string) (srv : Server) : joinSubsys * option error :=
  ({| j_srv := srv; j_sid := strings_TrimPrefix name "join:" |}, None).

(** * Vocabulary of the properties *)

(** ** Traces and visits *)

(** The state after the calls [evs] have been made. *)
Definition after_calls (evs : list event) (st : state) : state :=
  set_trace (λ tr, tr ++ evs) st.

(** The orders in which [for ... range m] may visit the entries of [m]. *)
Definition visits {A} (m : gmap string A) (ord : list (string * A)) : Prop :=
  ord ≡ₚ map_to_list m.

(** The call [w.Write(p)] on each sink of [ord], in order. *)
Definition writes_to (ord : list (string * ioWriter)) (p : bytes) : list event :=
  (λ kw, SinkWrite kw.2 p) <$> ord.

(** A sink that takes the whole slice without an error. *)
Definition accepts (chanWrite : Channel → bytes → Z * option error)
    (w : ioWriter) (p : bytes) : Prop :=
  ioWriter_Write chanWrite w p = (len p, None).

(** The call [p.ctx.sendResult(r)] for each party of [ord], in order. *)
Definition results_to (ord : list (string * party)) (r : execResult) : list event :=
  (λ kp, CtxSendResult (p_ctx kp.2) r) <$> ord.

Definition session_not_found (sid : string) : error :=
  Errorf ("session " +:+ sid +:+ " not found").

Definition party_not_found (id : string) : error :=
  Errorf ("failed to find party: " +:+ id).

(** ** Session objects *)

(** The object [newSession] allocates. *)
Definition blank_session (id : string) : session :=
  {| s_id := id; s_eid := None; s_writer := newMultiWriter;
     s_parties := ∅; s_t := None |}.

(** The object a session becomes when the party [p] is added. *)
Definition with_party (p : party) (o : session) : session :=
  set_writer (multiWriter_addWriter (p_id p) (Party p))
    (set_parties (λ m, <[p_id p := p]> m) o).

(** The object a session becomes when the party [id] has left. *)
Definition without_party (id : string) (o : session) : session :=
  set_writer (multiWriter_deleteWriter id)
    (set_parties (λ m, delete id m) o).

(** How [start] gets the terminal [t] of the session: it adopts the
    terminal the context carries and clears it from the context, or else
    it allocates one.  [inherited] is the table of inherited terminals
    before, [slots] the table afterwards, and [calls] are the calls made. *)
Inductive takes (inherited : gmap ctx term) (c : ctx) (a : answers)
  : term → gmap ctx term → list event → Prop :=
| takes_inherited t :
    inherited !! c = Some t →
    takes inherited c a t (delete c inherited) [CtxSetTerm c None]
| takes_allocated t :
    inherited !! c = None →
    newTerm a = inl t →
    takes inherited c a t inherited [NewTerm (inl t)].

(** The session object once [start] has taken the terminal [t]. *)
Definition with_term (c : ctx) (t : term) (o : session) : session :=
  set_t (Some t) (set_eid (Some c) o).

(** The session object once [start] has returned nil. *)
Definition started (s : loc) (p : party) (t : term) (o : session) : session :=
  with_party p
    (set_writer (multiWriter_addWriter "capture" (Buffer s))
       (with_term (p_ctx p) t o)).

(** The calls [start] makes once the terminal is taken and the command runs. *)
Definition start_calls (s : loc) (p : party) (t : term) : list event :=
  [TermRun t; CtxAddCloser (p_ctx p) p; Go (ChanToTerm s (p_id p));
   Go (TermToWriter s); Go (ExitWait s)].

(** ** Sequences of requests *)

(** What a connection brings to [newShell] or [joinShell]. *)
Record request := {
  r_sconn : ServerConn;
  r_ch : Channel;
  r_ctx : ctx;
  r_answers : answers
}.

Definition newShell_request (sid : string) (r : request) : M (option error) :=
  sessionRegistry_newShell sid (r_sconn r) (r_ch r) (r_ctx r) (r_answers r).

Definition joinShell_request (sid : string) (r : request) : M (option error) :=
  sessionRegistry_joinShell sid (r_sconn r) (r_ch r) (r_ctx r) (r_answers r).

Definition leaveShell_request (sid : string) (l : string * option error)
  : M (option error) :=
  sessionRegistry_leaveShell sid l.1 l.2.

(** The first call for an id: [newShell], or [joinShell] on a table that
    does not hold the id. *)
Inductive entry := via_newShell | via_joinShell.

Definition open_request (e : entry) (sid : string) (r : request) : M (option error) :=
  match e with
  | via_newShell => newShell_request sid r
  | via_joinShell => joinShell_request sid r
  end.

(** The party made for the request [r] on the session at [s]. *)
Definition party_of (s : loc) (r : request) : party :=
  newParty s (r_sconn r) (r_ch r) (r_ctx r) (uuid_New (r_answers r)).

(** The ids [uuid.New] gave to the parties of the requests. *)
Definition uuids (rs : list request) : list string :=
  (λ r, uuid_New (r_answers r)) <$> rs.

Definition join_calls (s : loc) (r : request) : list event :=
  [CtxAddCloser (r_ctx r) (party_of s r);
   Go (ChanToTerm s (uuid_New (r_answers r)))].

(** The session object after the requests [rs] have joined it. *)
Definition joined (s : loc) (rs : list request) (o : session) : session :=
  foldl (λ o r, with_party (party_of s r) o) o rs.

(** Terminals allocated or adopted, and commands started, in a trace. *)
Definition takes_terminal (e : event) : bool :=
  match e with
  | NewTerm (inl _) => true
  | CtxSetTerm _ None => true
  | _ => false
  end.

Definition starts_process (e : event) : bool :=
  match e with
  | TermRun _ => true
  | _ => false
  end.

Definition terminals_taken (tr : list event) : nat :=
  length (List.filter takes_terminal tr).

Definition processes_started (tr : list event) : nat :=
  length (List.filter starts_process tr).

(** ** Invariants *)

(** Every session the table points to is allocated. *)
Definition table_allocated (st : state) : Prop :=
  map_Forall (λ _ s, s < length (heap st)) (sessions st).

(** Every party is stored under its own id. *)
Definition keyed (o : session) : Prop :=
  map_Forall (λ id p, p_id p = id) (s_parties o).

(** Every party of the session is a sink of its broadcaster, under its id. *)
Definition parties_are_sinks (o : session) : Prop :=
  map_Forall (λ id p, writers (s_writer o) !! id = Some (Party p)) (s_parties o).

(** A registered session: it carries the key as its id, has a terminal and
    at least one party, and every party is stored under its own id and is a
    sink of the broadcaster. *)
Definition registered (sid : string) (o : session) : Prop :=
  s_id o = sid ∧ is_Some (s_t o) ∧ s_parties o ≠ ∅ ∧ keyed o ∧ parties_are_sinks o.

Definition registry_wf (st : state) : Prop :=
  map_Forall (λ sid s, ∃ o, heap st !! s = Some o ∧ registered sid o) (sessions st).

(** ** Concrete inputs *)

(** A broadcaster with the capture buffer and one party, used below. *)
Definition party1 : party := newParty 0 5 6 7 "p1".

Definition two_sinks : multiWriter :=
  multiWriter_addWriter "p1" (Party party1)
    (multiWriter_addWriter "capture" (Buffer 0) newMultiWriter).

Definition three_bytes : bytes := [Byte.x6c; Byte.x73; Byte.x0a].

(** A broadcaster with one party, on a channel whose [Write] fails. *)
Definition one_sink : multiWriter :=
  multiWriter_addWriter "p1" (Party party1) newMultiWriter.

Definition sink_fails : Channel → bytes → Z * option error :=
  λ _ _, (0%Z, Some (External 1)).

(** A registry with the session ["s"] at address [0], one party attached. *)
Definition one_party : session :=
  {| s_id := "s"; s_eid := Some 7; s_writer := two_sinks;
     s_parties := {["p1" := party1]}; s_t := Some 3 |}.

Definition registry1 : state :=
  {| sessions := {["s" := 0]}; heap := [one_party]; ctx_term := ∅; trace := [] |}.

Definition exit0 : execResult := {| exitCode := 0; exitError := None |}.

Definition shell_ok (uuid : string) (t : term) : answers :=
  {| uuid_New := uuid; newTerm := inl t; run := None |}.

Definition shell_fails : answers :=
  {| uuid_New := "p1"; newTerm := inl 4; run := Some (External 2) |}.

Definition inheriting : state :=
  {| sessions := ∅; heap := [blank_session "s"]; ctx_term := {[7 := 3]};
     trace := [] |}.

Definition request1 : request :=
  {| r_sconn := 5; r_ch := 6; r_ctx := 7; r_answers := shell_ok "p1" 3 |}.

Definition request2 : request :=
  {| r_sconn := 8; r_ch := 9; r_ctx := 10; r_answers := shell_ok "p2" 4 |}.

Definition request3 : request :=
  {| r_sconn := 11; r_ch := 12; r_ctx := 13; r_answers := shell_ok "p3" 9 |}.

Definition request_fails : request :=
  {| r_sconn := 5; r_ch := 6; r_ctx := 7; r_answers := shell_fails |}.

(** The party of the second request on a session at [1]. *)
Definition party2 : party := party_of 1 request2.

(** The registry after [newShell] has created the session ["s"] for one
    party. *)
Definition one_session : state :=
  {| sessions := {["s" := 0]};
     heap := [started 0 party1 3 (blank_session "s")];
     ctx_term := ∅;
     trace := NewTerm (inl 3) :: start_calls 0 party1 3 |}.

(** Two [newShell] calls with the id ["s"]: the table points to the second
    session, the first stays allocated with its terminal and its command. *)
Definition two_sessions : state :=
  {| sessions := {["s" := 1]};
     heap := [started 0 party1 3 (blank_session "s");
              started 1 party2 4 (blank_session "s")];
     ctx_term := ∅;
     trace := (NewTerm (inl 3) :: start_calls 0 party1 3)
              ++ NewTerm (inl 4) :: start_calls 1 party2 4 |}.

(** A [joinShell] whose command failed to start: nothing is registered. *)
Definition failed_start : state :=
  {| sessions := ∅;
     heap := [with_term 7 4 (blank_session "s")];
     ctx_term := ∅;
     trace := [NewTerm (inl 4); TermRun 4] |}.

Definition second_attempt : state :=
  {| sessions := {["s" := 1]};
     heap := [with_term 7 4 (blank_session "s");
              started 1 party2 4 (blank_session "s")];
     ctx_term := ∅;
     trace := [NewTerm (inl 4); TermRun 4]
              ++ NewTerm (inl 4) :: start_calls 1 party2 4 |}.

(** ** Calls on the registry *)

(** One call of the outer layer on the registry. *)
Inductive call :=
| NewShell (sid : string) (r : request)
| JoinShell (sid : string) (r : request)
| LeaveShell (sid pid : string) (closed : option error)
| BroadcastResult (sid : string) (r : execResult)
    (range : gmap string party → list (string * party)).

Definition run_call (c : call) : M (option error) :=
  match c with
  | NewShell sid r => newShell_request sid r
  | JoinShell sid r => joinShell_request sid r
  | LeaveShell sid pid closed => sessionRegistry_leaveShell sid pid closed
  | BroadcastResult sid r range => sessionRegistry_broadcastResult sid r range
  end.

(** The session id a call names. *)
Definition call_sid (c : call) : string :=
  match c with
  | NewShell sid _ => sid
  | JoinShell sid _ => sid
  | LeaveShell sid _ _ => sid
  | BroadcastResult sid _ _ => sid
  end.

(** A sink registered under [id] by the session at [s]: a party under its
    own id, or the capture buffer of that session under ["capture"]. *)
Definition sink_of (s : loc) (id : string) (w : ioWriter) : Prop :=
  match w with
  | Party q => p_id q = id
  | Buffer b => id = "capture" ∧ b = s
  end.

(** A registered session object at [s] whose parties point back to [s] and
    whose broadcaster holds nothing but its own sinks. *)
Definition tidy (sid : string) (s : loc) (o : session) : Prop :=
  registered sid o
  ∧ map_Forall (λ _ p, p_s p = s) (s_parties o)
  ∧ map_Forall (sink_of s) (writers (s_writer o)).

Definition registry_inv (st : state) : Prop :=
  map_Forall (λ sid s, ∃ o, heap st !! s = Some o ∧ tidy sid s o) (sessions st).

(** The error [leaveShell] returns for a party that has already left:
    the session is gone when the party was the last one. *)
Definition already_left (sid pid : string) (o : session) : error :=
  if decide (delete pid (s_parties o) = ∅) then session_not_found sid
  else party_not_found pid.

(** ** More concrete inputs *)

(** The registry after [request2] has joined the session ["s"]. *)
Definition two_parties : state :=
  {| sessions := {["s" := 0]};
     heap := [joined 0 [request2] (started 0 party1 3 (blank_session "s"))];
     ctx_term := ∅;
     trace := trace one_session ++ join_calls 0 request2 |}.

(** A channel that takes every slice whole. *)
Definition chan_ok : Channel → bytes → Z * option error :=
  λ _ b, (len b, None).

(** The registry after [newShell] has created a second session, ["t"]. *)
Definition two_ids : state :=
  {| sessions := <["t" := 1]> {["s" := 0]};
     heap := [started 0 party1 3 (blank_session "s");
              started 1 party2 4 (blank_session "t")];
     ctx_term := ∅;
     trace := trace one_session ++ NewTerm (inl 4) :: start_calls 1 party2 4 |}.

(** The session object of ["s"] in [one_session] and in [two_parties]. *)
Definition started1 : session := started 0 party1 3 (blank_session "s").

Definition joined2 : session := joined 0 [request2] started1.

(** The party of [request2] on the session at [0]. *)
Definition joiner2 : party := party_of 0 request2.

(** A session created, joined, told the exit result and left by both
    parties; the last [Close] fails. *)
Definition some_calls : list call :=
  [NewShell "s" request1; JoinShell "s" request2;
   BroadcastResult "s" exit0 map_to_list;
   LeaveShell "s" "p1" None; LeaveShell "s" "p2" (Some (External 1))].

(** * Properties *)

(** ** Running the monad *)

Lemma after_calls_nil st : after_calls [] st = st.
Proof. destruct st; unfold after_calls, set_trace; cbn. by rewrite app_nil_r. Qed.

Lemma after_calls_app evs1 evs2 st :
  after_calls evs2 (after_calls evs1 st) = after_calls (evs1 ++ evs2) st.
Proof. destruct st; unfold after_calls, set_trace; cbn. by rewrite app_assoc. Qed.

Lemma bind_run {A B} (m : M A) (f : A → M B) st :
  (m ≫= f) st = match m st with Some (a, st') => f a st' | None => None end.
Proof. reflexivity. Qed.

Lemma emit_run e st : emit e st = Some (tt, after_calls [e] st).
Proof. reflexivity. Qed.

Lemma deref_run s o st : heap st !! s = Some o → deref s st = Some (o, st).
Proof. unfold deref. by intros ->. Qed.

Lemma assign_run s o f st :
  heap st !! s = Some o →
  assign s f st = Some (tt, set_heap (λ h, <[s := f o]> h) st).
Proof. unfold assign. by intros ->. Qed.

(** ** The join request string *)

Lemma append_cons a p s : String a p +:+ s = String a (p +:+ s).
Proof. reflexivity. Qed.

Lemma append_empty s : "" +:+ s = s.
Proof. reflexivity. Qed.

Lemma substring_whole s : String.substring 0 (String.length s) s = s.
Proof. induction s as [|a s IH]; cbn; [done | by rewrite IH]. Qed.

Lemma substring_prefix_app p s :
  String.substring 0 (String.length p) (p +:+ s) = p.
Proof.
  induction p as [|a p IH].
  - rewrite append_empty. by destruct s.
  - rewrite append_cons. cbn. by rewrite IH.
Qed.

Lemma substring_suffix_app p s :
  String.substring (String.length p)
    (String.length (p +:+ s) - String.length p) (p +:+ s) = s.
Proof.
  induction p as [|a p IH].
  - rewrite append_empty. cbn. rewrite Nat.sub_0_r. apply substring_whole.
  - rewrite append_cons. cbn. exact IH.
Qed.

Lemma length_app_le p s : (String.length p ≤ String.length (p +:+ s))%nat.
Proof.
  induction p as [|a p IH]; [cbn; lia|].
  rewrite append_cons. cbn. lia.
Qed.

Lemma HasPrefix_app p s : strings_HasPrefix (p +:+ s) p = true.
Proof.
  unfold strings_HasPrefix. rewrite substring_prefix_app, String.eqb_refl.
  rewrite andb_true_r. apply Nat.leb_le, length_app_le.
Qed.

Lemma TrimPrefix_app p s : strings_TrimPrefix (p +:+ s) p = s.
Proof.
  unfold strings_TrimPrefix. rewrite HasPrefix_app. apply substring_suffix_app.
Qed.

Lemma substring_split n s :
  (n ≤ String.length s)%nat →
  s = String.substring 0 n s +:+ String.substring n (String.length s - n) s.
Proof.
  revert s. induction n as [|n IH]; intros s Hn.
  - rewrite Nat.sub_0_r, substring_whole. by destruct s.
  - destruct s as [|a s]; cbn in Hn; [lia|].
    cbn. rewrite append_cons. f_equal. apply IH. lia.
Qed.

Lemma HasPrefix_true s p :
  strings_HasPrefix s p = true → ∃ rest, s = p +:+ rest.
Proof.
  unfold strings_HasPrefix. intros [Hlen Heq]%andb_true_iff.
  apply Nat.leb_le in Hlen. apply String.eqb_eq in Heq.
  eexists. rewrite <- Heq at 1. by apply substring_split.
Qed.

Lemma TrimPrefix_other s p :
  (∀ rest, s ≠ p +:+ rest) → strings_TrimPrefix s p = s.
Proof.
  intros Hno. unfold strings_TrimPrefix.
  destruct (strings_HasPrefix s p) eqn:Hp; [|done].
  destruct (HasPrefix_true _ _ Hp) as [rest ->]. by destruct (Hno rest).
Qed.

(** C10: [parseJoinSubsys] returns a nil error for every input; on
    ["join:"] followed by a session id it yields that id, and on an input
    that does not begin with ["join:"] it yields the whole input as the
    session id. *)
Theorem parseJoinSubsys_accepts_every_input (name : string) (srv : Server) :
  (parseJoinSubsys name srv).2 = None
  ∧ j_srv (parseJoinSubsys name srv).1 = srv
  ∧ (∀ sid, name = "join:" +:+ sid → j_sid (parseJoinSubsys name srv).1 = sid)
  ∧ ((∀ sid, name ≠ "join:" +:+ sid) → j_sid (parseJoinSubsys name srv).1 = name).
Proof.
  unfold parseJoinSubsys; cbn [fst snd j_sid j_srv].
  split_and!; [done | done | |].
  - intros sid ->. apply TrimPrefix_app.
  - apply TrimPrefix_other.
Qed.

Lemma parseJoinSubsys_accepts_every_input_witness :
  j_sid (parseJoinSubsys "join:4f2a" 1).1 = "4f2a"
  ∧ j_sid (parseJoinSubsys "shell" 1).1 = "shell".
Proof.
  split.
  - apply (parseJoinSubsys_accepts_every_input "join:4f2a" 1). reflexivity.
  - apply (parseJoinSubsys_accepts_every_input "shell" 1).
    intros sid. discriminate.
Defined.

(** ** The fan-out writer *)

Lemma visits_map_to_list {A} (m : gmap string A) : visits m (map_to_list m).
Proof. by unfold visits. Qed.

Lemma visits_elem_of {A} (m : gmap string A) ord id x :
  visits m ord → (id, x) ∈ ord ↔ m !! id = Some x.
Proof. unfold visits. intros ->. apply elem_of_map_to_list. Qed.

Lemma visits_NoDup {A} (m : gmap string A) ord : visits m ord → NoDup ord.*1.
Proof. unfold visits. intros ->. apply NoDup_fst_map_to_list. Qed.

Section Broadcaster.
Variable chanWrite : Channel → bytes → Z * option error.

Lemma Write_cons id w rest p st :
  Write_loop chanWrite ((id, w) :: rest) p st =
    match ioWriter_Write chanWrite w p with
    | (n, Some err) => Some ((n, Some err), after_calls [SinkWrite w p] st)
    | (n, None) =>
        if negb (n =? len p)%Z
        then Some ((n, Some ErrShortWrite), after_calls [SinkWrite w p] st)
        else Write_loop chanWrite rest p (after_calls [SinkWrite w p] st)
    end.
Proof.
  cbn [Write_loop]. rewrite bind_run, emit_run.
  destruct (ioWriter_Write chanWrite w p) as [n [err|]]; [done|].
  by destruct (negb (n =? len p)%Z).
Qed.

Lemma Write_accepted ord p st :
  (∀ kw, kw ∈ ord → accepts chanWrite kw.2 p) →
  Write_loop chanWrite ord p st
  = Some ((len p, None), after_calls (writes_to ord p) st).
Proof.
  revert st. induction ord as [|[id w] rest IH]; intros st Hok.
  - cbn. by rewrite after_calls_nil.
  - rewrite Write_cons.
    rewrite (Hok (id, w)) by constructor.
    rewrite Z.eqb_refl. cbn [negb].
    rewrite IH by (intros kw Hkw; apply Hok; by constructor).
    by rewrite after_calls_app.
Qed.

Lemma Write_rejected pre id w post p n err st :
  (∀ kw, kw ∈ pre → accepts chanWrite kw.2 p) →
  ioWriter_Write chanWrite w p = (n, err) →
  (is_Some err ∨ n ≠ len p) →
  Write_loop chanWrite (pre ++ (id, w) :: post) p st
  = Some ((n, Some (default ErrShortWrite err)),
          after_calls (writes_to (pre ++ [(id, w)]) p) st).
Proof.
  revert st. induction pre as [|[id' w'] pre IH]; intros st Hok Hw Hbad.
  - cbn [app]. rewrite Write_cons, Hw.
    destruct err as [e|]; [done|].
    destruct Hbad as [[? [=]]|Hn].
    by apply Z.eqb_neq in Hn as ->.
  - cbn [app]. rewrite Write_cons.
    rewrite (Hok (id', w')) by constructor.
    rewrite Z.eqb_refl. cbn [negb].
    rewrite IH; [|intros kw Hkw; apply Hok; by constructor|done..].
    by rewrite after_calls_app.
Qed.
End Broadcaster.

(** C3: when every registered sink takes the whole slice without an error,
    [Write(p)] calls [Write(p)] with the whole slice exactly once on every
    registered sink, whatever the order of the visit, and returns
    [(len(p), nil)]. *)
Theorem multiWriter_Write_reaches_every_sink
    (chanWrite : Channel → bytes → Z * option error)
    (t : multiWriter) (range : gmap string ioWriter → list (string * ioWriter))
    (p : bytes) (st : state) :
  let ord := range (writers t) in
  visits (writers t) ord →
  (∀ id w, writers t !! id = Some w → accepts chanWrite w p) →
  multiWriter_Write chanWrite t range p st
    = Some ((len p, None), after_calls (writes_to ord p) st)
  ∧ NoDup ord.*1
  ∧ (∀ id w, (id, w) ∈ ord ↔ writers t !! id = Some w)
  ∧ writes_to ord p ≡ₚ writes_to (map_to_list (writers t)) p.
Proof.
  intros ord Hv Hok. split_and!.
  - apply Write_accepted. intros [id w] Hin. cbn.
    apply (Hok id). by apply (visits_elem_of _ ord).
  - by eapply visits_NoDup.
  - intros id w. by apply visits_elem_of.
  - unfold writes_to. unfold visits in Hv. by rewrite Hv.
Qed.

(** C4, as the code has it: at the first sink that returns an error or a
    count different from [len(p)], [Write(p)] stops, no later sink of the
    visit is written to, and the caller gets the count of that sink with
    the error of that sink when it gave one ([default] picks it), and with
    [io.ErrShortWrite] when it gave none. *)
Theorem multiWriter_Write_fails_fast
    (chanWrite : Channel → bytes → Z * option error)
    (t : multiWriter) (range : gmap string ioWriter → list (string * ioWriter))
    (pre post : list (string * ioWriter))
    (id : string) (w : ioWriter) (p : bytes) (n : Z) (err : option error)
    (st : state) :
  visits (writers t) (range (writers t)) →
  range (writers t) = pre ++ (id, w) :: post →
  (∀ kw, kw ∈ pre → accepts chanWrite kw.2 p) →
  ioWriter_Write chanWrite w p = (n, err) →
  (is_Some err ∨ n ≠ len p) →
  multiWriter_Write chanWrite t range p st
    = Some ((n, Some (default ErrShortWrite err)),
            after_calls (writes_to pre p ++ [SinkWrite w p]) st).
Proof.
  intros _ Hord Hok Hw Hbad. unfold multiWriter_Write. rewrite Hord.
  erewrite Write_rejected by done.
  unfold writes_to. by rewrite fmap_app.
Qed.

Lemma multiWriter_Write_reaches_every_sink_witness :
  multiWriter_Write (λ _ b, (len b, None)) two_sinks map_to_list
    three_bytes newSessionRegistry
  = Some ((3%Z, None),
          after_calls [SinkWrite (Buffer 0) three_bytes;
                       SinkWrite (Party party1) three_bytes] newSessionRegistry).
Proof.
  destruct (multiWriter_Write_reaches_every_sink (λ _ b, (len b, None)) two_sinks
              map_to_list three_bytes newSessionRegistry) as [H _].
  - apply visits_map_to_list.
  - intros id w _. by destruct w.
  - exact H.
Defined.

Lemma multiWriter_Write_fails_fast_witness :
  multiWriter_Write (λ _ _, (2%Z, None)) two_sinks map_to_list three_bytes
    newSessionRegistry
  = Some ((2%Z, Some ErrShortWrite),
          after_calls [SinkWrite (Buffer 0) three_bytes;
                       SinkWrite (Party party1) three_bytes] newSessionRegistry).
Proof.
  apply (multiWriter_Write_fails_fast (λ _ _, (2%Z, None)) two_sinks map_to_list
           [("capture", Buffer 0)] [] "p1" (Party party1) three_bytes 2 None
           newSessionRegistry).
  - apply visits_map_to_list.
  - vm_compute. reflexivity.
  - intros kw ->%list_elem_of_singleton. reflexivity.
  - reflexivity.
  - right. discriminate.
Defined.

(** C4 as stated fails: a sink that returns an error of its own makes
    [Write] return that error, not a short-write error. *)
Lemma multiWriter_Write_sink_error_counterexample :
  writers one_sink !! "p1" = Some (Party party1)
  ∧ ioWriter_Write sink_fails (Party party1) three_bytes = (0%Z, Some (External 1))
  ∧ multiWriter_Write sink_fails one_sink map_to_list three_bytes newSessionRegistry
    = Some ((0%Z, Some (External 1)),
            after_calls [SinkWrite (Party party1) three_bytes] newSessionRegistry)
  ∧ External 1 ≠ ErrShortWrite.
Proof.
  split_and!; [reflexivity|reflexivity|vm_compute; reflexivity|discriminate].
Qed.

(** ** Delivery of the exit result *)

Lemma broadcastResult_loop_run ord r st :
  broadcastResult_loop ord r st = Some (tt, after_calls (results_to ord r) st).
Proof.
  revert st. induction ord as [|[id p] rest IH]; intros st.
  - cbn. by rewrite after_calls_nil.
  - cbn [broadcastResult_loop]. rewrite bind_run, emit_run, IH.
    by rewrite after_calls_app.
Qed.

Lemma session_broadcastResult_run s o range r st :
  heap st !! s = Some o →
  session_broadcastResult s range r st
  = Some (tt, after_calls (results_to (range (s_parties o)) r) st).
Proof.
  intros Hs. unfold session_broadcastResult.
  rewrite bind_run, (deref_run _ _ _ Hs). apply broadcastResult_loop_run.
Qed.

(** C5: [session.broadcastResult(r)] calls [sendResult(r)] exactly once for
    each party that is in the parties map at the time of the call and for
    no other party; [registry.broadcastResult(sid, r)] does so for the
    session found under [sid], and, for every registry whose table does
    not hold [sid], returns a not-found error without any call. *)
Theorem broadcastResult_reaches_current_parties
    (st : state) (sid : string) (r : execResult)
    (range : gmap string party → list (string * party)) :
  (sessions st !! sid = None →
   sessionRegistry_broadcastResult sid r range st
   = Some (Some (session_not_found sid), st))
  ∧ (∀ s o,
       heap st !! s = Some o →
       visits (s_parties o) (range (s_parties o)) →
       session_broadcastResult s range r st
         = Some (tt, after_calls (results_to (range (s_parties o)) r) st)
       ∧ NoDup (range (s_parties o)).*1
       ∧ (∀ id p, (id, p) ∈ range (s_parties o) ↔ s_parties o !! id = Some p)
       ∧ (sessions st !! sid = Some s →
          sessionRegistry_broadcastResult sid r range st
          = Some (None, after_calls (results_to (range (s_parties o)) r) st))).
Proof.
  split.
  - intros Hsid. unfold sessionRegistry_broadcastResult, sessionRegistry_findSession.
    by rewrite bind_run, Hsid.
  - intros s o Hs Hv. split_and!.
    + by apply session_broadcastResult_run.
    + by eapply visits_NoDup.
    + intros id p. by apply visits_elem_of.
    + intros Hsid.
      unfold sessionRegistry_broadcastResult, sessionRegistry_findSession.
      rewrite bind_run, Hsid, bind_run.
      by rewrite (session_broadcastResult_run _ _ _ _ _ Hs).
Qed.

Lemma broadcastResult_reaches_current_parties_witness :
  sessionRegistry_broadcastResult "s" exit0 map_to_list newSessionRegistry
  = Some (Some (session_not_found "s"), newSessionRegistry)
  ∧ sessionRegistry_broadcastResult "t" exit0 map_to_list registry1
    = Some (Some (session_not_found "t"), registry1)
  ∧ session_broadcastResult 0 map_to_list exit0 registry1
    = Some (tt, after_calls [CtxSendResult 7 exit0] registry1)
  ∧ sessionRegistry_broadcastResult "s" exit0 map_to_list registry1
    = Some (None, after_calls [CtxSendResult 7 exit0] registry1).
Proof.
  split_and!.
  - apply (broadcastResult_reaches_current_parties newSessionRegistry "s" exit0
             map_to_list). reflexivity.
  - apply (broadcastResult_reaches_current_parties registry1 "t" exit0
             map_to_list). reflexivity.
  - destruct (broadcastResult_reaches_current_parties registry1 "s" exit0
                map_to_list) as [_ Hfound].
    destruct (Hfound 0 one_party) as (H1 & _);
      [reflexivity | apply visits_map_to_list | exact H1].
  - destruct (broadcastResult_reaches_current_parties registry1 "s" exit0
                map_to_list) as [_ Hfound].
    destruct (Hfound 0 one_party) as (_ & _ & _ & H2);
      [reflexivity | apply visits_map_to_list | apply H2; reflexivity].
Defined.

(** ** Leaving a session *)

(** C7: [session.leave(id)] for an id that is not in the parties map
    returns a not-found error and changes nothing: neither the parties map
    nor the sinks of the broadcaster. *)
Theorem session_leave_unknown_party
    (st : state) (s : loc) (o : session) (id : string) :
  heap st !! s = Some o →
  s_parties o !! id = None →
  session_leave s id st = Some (Some (party_not_found id), st).
Proof.
  intros Hs Hid. unfold session_leave.
  by rewrite bind_run, (deref_run _ _ _ Hs), Hid.
Qed.

Lemma session_leave_unknown_party_witness :
  session_leave 0 "p9" registry1 = Some (Some (party_not_found "p9"), registry1).
Proof.
  apply (session_leave_unknown_party registry1 0 one_party "p9"); reflexivity.
Defined.

(** ** Stepping through a method *)

Lemma lookup_update (h : list session) s o x :
  h !! s = Some o → <[s := x]> h !! s = Some x.
Proof. intros H. apply list_lookup_insert_eq. by eapply lookup_lt_Some. Qed.

Lemma ctx_getTerm_run c st : ctx_getTerm c st = Some (ctx_term st !! c, st).
Proof. reflexivity. Qed.

Lemma findSession_run id st :
  sessionRegistry_findSession id st = Some (sessions st !! id, st).
Proof. reflexivity. Qed.

Lemma mret_run {A} (a : A) st : (mret a : M A) st = Some (a, st).
Proof. reflexivity. Qed.

Ltac unfold_state :=
  cbn [heap sessions ctx_term trace set_heap set_sessions set_ctx_term
       set_trace after_calls].

Ltac heap_lookup :=
  unfold_state; first [eassumption | eapply lookup_update; heap_lookup].

Ltac mstep :=
  first
    [ rewrite bind_run
    | rewrite emit_run
    | rewrite mret_run
    | rewrite ctx_getTerm_run
    | rewrite findSession_run
    | erewrite deref_run by heap_lookup
    | erewrite assign_run by heap_lookup ];
  cbv beta iota zeta.

Ltac mrun := repeat mstep.

(** Two states are equal when their four fields are. *)
Lemma state_eq st1 st2 :
  sessions st1 = sessions st2 → heap st1 = heap st2 →
  ctx_term st1 = ctx_term st2 → trace st1 = trace st2 → st1 = st2.
Proof. destruct st1, st2; cbn; congruence. Qed.

Ltac state_eq :=
  apply state_eq; unfold_state;
  rewrite ?list_insert_insert_eq, <- ?app_assoc; try done.

Lemma session_addParty_run s o p st :
  heap st !! s = Some o →
  session_addParty s p st
  = Some (tt, after_calls [CtxAddCloser (p_ctx p) p; Go (ChanToTerm s (p_id p))]
                (set_heap (λ h, <[s := with_party p o]> h) st)).
Proof.
  intros Hs. unfold session_addParty. mrun.
  do 2 f_equal. state_eq.
Qed.

Lemma session_join_run s o sconn ch c a st :
  heap st !! s = Some o →
  let p := newParty s sconn ch c (uuid_New a) in
  session_join s sconn ch c a st
  = Some ((p, None),
          after_calls [CtxAddCloser c p; Go (ChanToTerm s (uuid_New a))]
            (set_heap (λ h, <[s := with_party p o]> h) st)).
Proof.
  intros Hs p. unfold session_join. mstep.
  by rewrite (session_addParty_run _ _ _ _ Hs).
Qed.

Lemma session_leave_run s o id p st :
  heap st !! s = Some o →
  s_parties o !! id = Some p →
  session_leave s id st
  = Some (None, set_heap (λ h, <[s := without_party (p_id p) o]> h) st).
Proof.
  intros Hs Hp. unfold session_leave. mstep. mstep. rewrite Hp. mrun.
  do 2 f_equal. state_eq.
Qed.

(** ** Starting a session *)

Lemma ctx_setTerm_nil_run c st :
  ctx_setTerm c None st
  = Some (tt, after_calls [CtxSetTerm c None] (set_ctx_term (λ m, delete c m) st)).
Proof. reflexivity. Qed.

Lemma session_start_no_term s o sconn ch c a err st :
  heap st !! s = Some o →
  ctx_term st !! c = None →
  newTerm a = inr err →
  session_start s sconn ch c a st
  = Some (Some err,
          {| sessions := sessions st;
             heap := <[s := set_t None (set_eid (Some c) o)]> (heap st);
             ctx_term := ctx_term st;
             trace := trace st ++ [NewTerm (inr err)] |}).
Proof.
  intros Hs Hc Ha. unfold session_start. mrun. unfold_state.
  cbn [newParty p_ctx]. rewrite Hc. mrun. rewrite Ha. mrun.
  do 2 f_equal. state_eq.
Qed.

Lemma session_start_run_failed s o sconn ch c a t slots calls err st :
  heap st !! s = Some o →
  takes (ctx_term st) c a t slots calls →
  run a = Some err →
  session_start s sconn ch c a st
  = Some (Some err,
          {| sessions := sessions st;
             heap := <[s := with_term c t o]> (heap st);
             ctx_term := slots;
             trace := trace st ++ calls ++ [TermRun t] |}).
Proof.
  intros Hs Ht Hr. unfold session_start. mrun. unfold_state.
  cbn [newParty p_ctx].
  destruct Ht as [t Hc|t Hc Ha]; rewrite Hc.
  - mrun. unfold_state. rewrite Hc. mrun.
    rewrite ctx_setTerm_nil_run. mrun. cbn [s_t set_t]. mrun.
    rewrite Hr. mrun. do 2 f_equal. state_eq.
  - mrun. rewrite Ha. mrun. cbn [s_t set_t]. mrun.
    rewrite Hr. mrun. do 2 f_equal. state_eq.
Qed.

Lemma session_start_ok s o sconn ch c a t slots calls st :
  heap st !! s = Some o →
  takes (ctx_term st) c a t slots calls →
  run a = None →
  let p := newParty s sconn ch c (uuid_New a) in
  session_start s sconn ch c a st
  = Some (None,
          {| sessions := sessions st;
             heap := <[s := started s p t o]> (heap st);
             ctx_term := slots;
             trace := trace st ++ calls ++ start_calls s p t |}).
Proof.
  intros Hs Ht Hr p. unfold session_start. mrun. unfold_state.
  cbn [newParty p_ctx].
  destruct Ht as [t Hc|t Hc Ha]; rewrite Hc.
  - mrun. unfold_state. rewrite Hc. mrun.
    rewrite ctx_setTerm_nil_run. mrun. cbn [s_t set_t]. mrun.
    rewrite Hr. mrun. erewrite session_addParty_run by heap_lookup. mrun.
    do 2 f_equal. state_eq.
  - mrun. rewrite Ha. mrun. cbn [s_t set_t]. mrun.
    rewrite Hr. mrun. erewrite session_addParty_run by heap_lookup. mrun.
    do 2 f_equal. state_eq.
Qed.

(** The three ways [start] can end, for whatever the collaborators answer. *)
Lemma session_start_cases (inherited : gmap ctx term) (c : ctx) (a : answers) :
  (∃ err, inherited !! c = None ∧ newTerm a = inr err)
  ∨ (∃ t slots calls err, takes inherited c a t slots calls ∧ run a = Some err)
  ∨ (∃ t slots calls, takes inherited c a t slots calls ∧ run a = None).
Proof.
  destruct (inherited !! c) as [t|] eqn:Hc.
  - destruct (run a) as [err|] eqn:Hr.
    + right; left. do 4 eexists. split; [by apply takes_inherited | done].
    + right; right. do 3 eexists. split; [by apply takes_inherited | done].
  - destruct (newTerm a) as [t|err] eqn:Ha.
    + destruct (run a) as [err|] eqn:Hr.
      * right; left. do 4 eexists. split; [by apply takes_allocated | done].
      * right; right. do 3 eexists. split; [by apply takes_allocated | done].
    + left. by exists err.
Qed.

(** ** The registry, step by step *)

Lemma newSession_run id st :
  newSession id st
  = Some (length (heap st), set_heap (λ h, h ++ [blank_session id]) st).
Proof. reflexivity. Qed.

Lemma lookup_last_alloc (h : list session) o : (h ++ [o]) !! length h = Some o.
Proof. by rewrite list_lookup_middle. Qed.

Lemma insert_last_alloc (h : list session) o o' :
  <[length h := o']> (h ++ [o]) = h ++ [o'].
Proof.
  replace (length h) with (length h + 0) by lia.
  by rewrite insert_app_r.
Qed.

Lemma table_insert_run id s st :
  table_insert id s st = Some (tt, set_sessions (λ m, <[id := s]> m) st).
Proof. reflexivity. Qed.

Lemma table_delete_run id st :
  table_delete id st = Some (tt, set_sessions (λ m, delete id m) st).
Proof. reflexivity. Qed.

Section NewShell.
Variables (sid : string) (sconn : ServerConn) (ch : Channel) (c : ctx)
          (a : answers) (st : state).

Let s : loc := length (heap st).
Let p : party := newParty s sconn ch c (uuid_New a).

Lemma newShell_no_term err :
  ctx_term st !! c = None →
  newTerm a = inr err →
  sessionRegistry_newShell sid sconn ch c a st
  = Some (Some err,
          {| sessions := sessions st;
             heap := heap st ++ [set_t None (set_eid (Some c) (blank_session sid))];
             ctx_term := ctx_term st;
             trace := trace st ++ [NewTerm (inr err)] |}).
Proof.
  intros Hc Ha. unfold sessionRegistry_newShell.
  rewrite bind_run, newSession_run. cbv beta iota. rewrite bind_run.
  erewrite session_start_no_term; [|apply lookup_last_alloc|done..].
  cbv beta iota. mrun. do 2 f_equal. state_eq.
  apply insert_last_alloc.
Qed.

Lemma newShell_run_failed t slots calls err :
  takes (ctx_term st) c a t slots calls →
  run a = Some err →
  sessionRegistry_newShell sid sconn ch c a st
  = Some (Some err,
          {| sessions := sessions st;
             heap := heap st ++ [with_term c t (blank_session sid)];
             ctx_term := slots;
             trace := trace st ++ calls ++ [TermRun t] |}).
Proof.
  intros Ht Hr. unfold sessionRegistry_newShell.
  rewrite bind_run, newSession_run. cbv beta iota. rewrite bind_run.
  erewrite session_start_run_failed; [|apply lookup_last_alloc|done..].
  cbv beta iota. mrun. do 2 f_equal. state_eq.
  apply insert_last_alloc.
Qed.

Lemma newShell_ok t slots calls :
  takes (ctx_term st) c a t slots calls →
  run a = None →
  sessionRegistry_newShell sid sconn ch c a st
  = Some (None,
          {| sessions := <[sid := s]> (sessions st);
             heap := heap st ++ [started s p t (blank_session sid)];
             ctx_term := slots;
             trace := trace st ++ calls ++ start_calls s p t |}).
Proof.
  intros Ht Hr. unfold sessionRegistry_newShell.
  rewrite bind_run, newSession_run. cbv beta iota. rewrite bind_run.
  erewrite session_start_ok; [|apply lookup_last_alloc|done..].
  cbv beta iota zeta. rewrite bind_run.
  erewrite deref_run
    by (unfold_state; rewrite insert_last_alloc; apply lookup_last_alloc).
  cbv beta iota. rewrite bind_run, table_insert_run. cbv beta iota.
  rewrite mret_run. do 2 f_equal. state_eq.
  apply insert_last_alloc.
Qed.
End NewShell.

Lemma joinShell_absent sid sconn ch c a st :
  sessions st !! sid = None →
  sessionRegistry_joinShell sid sconn ch c a st
  = sessionRegistry_newShell sid sconn ch c a st.
Proof.
  intros Hsid. unfold sessionRegistry_joinShell.
  by rewrite bind_run, findSession_run, Hsid.
Qed.

Lemma joinShell_present sid s o sconn ch c a st :
  sessions st !! sid = Some s →
  heap st !! s = Some o →
  let p := newParty s sconn ch c (uuid_New a) in
  sessionRegistry_joinShell sid sconn ch c a st
  = Some (None,
          after_calls [CtxAddCloser c p; Go (ChanToTerm s (uuid_New a))]
            (set_heap (λ h, <[s := with_party p o]> h) st)).
Proof.
  intros Hsid Hs p. unfold sessionRegistry_joinShell.
  rewrite bind_run, findSession_run, Hsid. cbv beta iota.
  rewrite bind_run. by erewrite session_join_run.
Qed.

Lemma leaveShell_absent sid pid closed st :
  sessions st !! sid = None →
  sessionRegistry_leaveShell sid pid closed st
  = Some (Some (session_not_found sid), st).
Proof.
  intros Hsid. unfold sessionRegistry_leaveShell.
  by rewrite bind_run, findSession_run, Hsid.
Qed.

Lemma leaveShell_unknown_party sid s o pid closed st :
  sessions st !! sid = Some s →
  heap st !! s = Some o →
  s_parties o !! pid = None →
  sessionRegistry_leaveShell sid pid closed st
  = Some (Some (party_not_found pid), st).
Proof.
  intros Hsid Hs Hp. unfold sessionRegistry_leaveShell.
  rewrite bind_run, findSession_run, Hsid. cbv beta iota.
  by rewrite bind_run, (session_leave_unknown_party _ _ _ _ Hs Hp).
Qed.

Lemma leaveShell_others_remain sid s o pid p closed st :
  sessions st !! sid = Some s →
  heap st !! s = Some o →
  s_parties o !! pid = Some p →
  delete (p_id p) (s_parties o) ≠ ∅ →
  sessionRegistry_leaveShell sid pid closed st
  = Some (None, set_heap (λ h, <[s := without_party (p_id p) o]> h) st).
Proof.
  intros Hsid Hs Hp Hne. unfold sessionRegistry_leaveShell.
  rewrite bind_run, findSession_run, Hsid. cbv beta iota.
  rewrite bind_run, (session_leave_run _ _ _ _ _ Hs Hp). cbv beta iota.
  mstep. mstep. cbn [s_parties without_party set_writer set_parties].
  destruct (size (delete (p_id p) (s_parties o)) =? 0)%nat eqn:Hsize; [|done].
  apply Nat.eqb_eq, map_size_empty_iff in Hsize. done.
Qed.

Lemma leaveShell_last_party sid s o pid p t closed st :
  sessions st !! sid = Some s →
  heap st !! s = Some o →
  s_parties o !! pid = Some p →
  delete (p_id p) (s_parties o) = ∅ →
  s_t o = Some t →
  sessionRegistry_leaveShell sid pid closed st
  = Some (closed,
          {| sessions := delete (s_id o) (sessions st);
             heap := <[s := without_party (p_id p) o]> (heap st);
             ctx_term := ctx_term st;
             trace := trace st ++ [TermClose t] |}).
Proof.
  intros Hsid Hs Hp Hempty Ht. unfold sessionRegistry_leaveShell.
  rewrite bind_run, findSession_run, Hsid. cbv beta iota.
  rewrite bind_run, (session_leave_run _ _ _ _ _ Hs Hp). cbv beta iota.
  mstep. mstep. cbn [s_parties s_id without_party set_writer set_parties].
  rewrite Hempty, map_size_empty. cbn [Nat.eqb negb].
  rewrite bind_run, table_delete_run. cbv beta iota.
  unfold session_Close. mstep. mstep. mstep.
  cbn [s_t without_party set_writer set_parties]. rewrite Ht. mrun.
  destruct closed; mrun; do 2 f_equal; state_eq.
Qed.

(** What [newShell] did when it returned nil. *)
Lemma newShell_nil_inv sid sconn ch c a st st' :
  sessionRegistry_newShell sid sconn ch c a st = Some (None, st') →
  ∃ t slots calls,
    takes (ctx_term st) c a t slots calls ∧ run a = None
    ∧ let s := length (heap st) in
      let p := newParty s sconn ch c (uuid_New a) in
      st' = {| sessions := <[sid := s]> (sessions st);
               heap := heap st ++ [started s p t (blank_session sid)];
               ctx_term := slots;
               trace := trace st ++ calls ++ start_calls s p t |}.
Proof.
  intros Hrun.
  destruct (session_start_cases (ctx_term st) c a)
    as [(err & Hc & Ha)|[(t & slots & calls & err & Ht & Hr)
                        |(t & slots & calls & Ht & Hr)]].
  - by rewrite (newShell_no_term _ _ _ _ _ _ _ Hc Ha) in Hrun.
  - by rewrite (newShell_run_failed _ _ _ _ _ _ _ _ _ _ Ht Hr) in Hrun.
  - rewrite (newShell_ok _ _ _ _ _ _ _ _ _ Ht Hr) in Hrun.
    injection Hrun as <-. by exists t, slots, calls.
Qed.

(** ** Creation failure *)

(** C6: when the allocation of the terminal fails, or the terminal is
    there and the command fails to start, [newShell] returns that error
    and the session table is what it was. *)
Theorem newShell_failure_registers_nothing
    (st : state) (sid : string) (sconn : ServerConn) (ch : Channel) (c : ctx)
    (a : answers) (err : error) :
  (ctx_term st !! c = None ∧ newTerm a = inr err)
  ∨ ((is_Some (ctx_term st !! c) ∨ ∃ t, newTerm a = inl t) ∧ run a = Some err) →
  ∃ st', sessionRegistry_newShell sid sconn ch c a st = Some (Some err, st')
         ∧ sessions st' = sessions st.
Proof.
  intros [[Hc Ha]|[Hterm Hr]].
  - eexists. split; [by apply newShell_no_term | done].
  - destruct (ctx_term st !! c) as [t|] eqn:Hc.
    + eexists. split;
        [eapply newShell_run_failed; [by apply takes_inherited | done] | done].
    + destruct Hterm as [[? [=]]|[t Ha]].
      eexists. split;
        [eapply newShell_run_failed; [by apply takes_allocated | done] | done].
Qed.

Lemma newShell_failure_registers_nothing_witness :
  ∃ st', sessionRegistry_newShell "s" 5 6 7
           {| uuid_New := "p1"; newTerm := inl 3; run := Some (External 2) |}
           newSessionRegistry = Some (Some (External 2), st')
         ∧ sessions st' = sessions newSessionRegistry.
Proof.
  apply (newShell_failure_registers_nothing newSessionRegistry "s" 5 6 7
           {| uuid_New := "p1"; newTerm := inl 3; run := Some (External 2) |}).
  right. split; [right; by exists 3 | reflexivity].
Defined.

(** ** The inherited terminal *)

(** C8: with an inherited terminal in the context, [start] clears it from
    the context before it runs the command; when the command then fails,
    [start] returns the error, the context holds no terminal any more, and
    the terminal is held by the session object, which [newShell] leaves
    out of the table. *)
Theorem start_consumes_inherited_terminal
    (st : state) (s : loc) (o : session) (sid : string)
    (sconn : ServerConn) (ch : Channel) (c : ctx) (a : answers) (t : term) :
  heap st !! s = Some o →
  ctx_term st !! c = Some t →
  (∃ r st' later,
      session_start s sconn ch c a st = Some (r, st')
      ∧ ctx_term st' !! c = None
      ∧ trace st' = trace st ++ CtxSetTerm c None :: TermRun t :: later)
  ∧ (∀ err, run a = Some err →
      ∃ st', session_start s sconn ch c a st = Some (Some err, st')
             ∧ ctx_term st' !! c = None
             ∧ trace st' = trace st ++ [CtxSetTerm c None; TermRun t]
             ∧ (∃ o', heap st' !! s = Some o' ∧ s_t o' = Some t)
             ∧ sessions st' = sessions st)
  ∧ (∀ err, run a = Some err → table_allocated st →
      ∃ st' o', sessionRegistry_newShell sid sconn ch c a st = Some (Some err, st')
             ∧ ctx_term st' !! c = None
             ∧ heap st' !! length (heap st) = Some o' ∧ s_t o' = Some t
             ∧ sessions st' = sessions st
             ∧ ∀ k, sessions st' !! k ≠ Some (length (heap st))).
Proof.
  intros Hs Hc.
  assert (Ht : takes (ctx_term st) c a t (delete c (ctx_term st)) [CtxSetTerm c None])
    by (by apply takes_inherited).
  split_and!.
  - destruct (run a) as [err|] eqn:Hr.
    + do 3 eexists. split; [by eapply session_start_run_failed|].
      cbn. split; [apply lookup_delete_eq | done].
    + do 3 eexists. split; [by eapply session_start_ok|].
      cbn. split; [apply lookup_delete_eq | done].
  - intros err Hr. eexists. split; [by eapply session_start_run_failed|].
    cbn. split_and!; [apply lookup_delete_eq | done | | done].
    eexists. split; [by eapply lookup_update | done].
  - intros err Hr Halloc. do 2 eexists.
    split; [by eapply newShell_run_failed|].
    cbn. split_and!; [apply lookup_delete_eq | apply lookup_last_alloc | done..|].
    intros k Hk. apply Halloc in Hk. cbn in Hk. lia.
Qed.

Lemma start_consumes_inherited_terminal_witness :
  ∃ st', session_start 0 5 6 7 shell_fails inheriting
         = Some (Some (External 2), st')
         ∧ ctx_term st' !! 7 = None
         ∧ trace st' = trace inheriting ++ [CtxSetTerm 7 None; TermRun 3]
         ∧ (∃ o', heap st' !! 0 = Some o' ∧ s_t o' = Some 3)
         ∧ sessions st' = sessions inheriting.
Proof.
  apply (start_consumes_inherited_terminal inheriting 0 (blank_session "s") "s"
           5 6 7 shell_fails 3); reflexivity.
Defined.

(** ** One session per id *)

Lemma terminals_taken_app tr1 tr2 :
  terminals_taken (tr1 ++ tr2) = terminals_taken tr1 + terminals_taken tr2.
Proof. unfold terminals_taken. by rewrite List.filter_app, length_app. Qed.

Lemma processes_started_app tr1 tr2 :
  processes_started (tr1 ++ tr2) = processes_started tr1 + processes_started tr2.
Proof. unfold processes_started. by rewrite List.filter_app, length_app. Qed.

Lemma takes_counts inherited c a t slots calls :
  takes inherited c a t slots calls →
  terminals_taken calls = 1 ∧ processes_started calls = 0.
Proof. by intros [? ?|? ? ?]. Qed.

Lemma joins_count s rs :
  terminals_taken (rs ≫= join_calls s) = 0
  ∧ processes_started (rs ≫= join_calls s) = 0.
Proof.
  induction rs as [|r rs [IH1 IH2]]; [done|].
  change ((r :: rs) ≫= join_calls s) with (join_calls s r ++ (rs ≫= join_calls s)).
  by rewrite terminals_taken_app, processes_started_app, IH1, IH2.
Qed.

Lemma mapM_nil_run {A B} (f : A → M B) st : mapM f [] st = Some ([], st).
Proof. reflexivity. Qed.

Lemma mapM_cons_run {A B} (f : A → M B) x l st :
  mapM f (x :: l) st
  = match f x st with
    | Some (y, st') =>
        match mapM f l st' with
        | Some (k, st'') => Some (y :: k, st'')
        | None => None
        end
    | None => None
    end.
Proof.
  change (mapM f (x :: l)) with (y ← f x; k ← mapM f l; mret (y :: k)).
  rewrite bind_run. destruct (f x st) as [[y st']|]; [|done].
  rewrite bind_run. by destruct (mapM f l st') as [[k st'']|].
Qed.

Lemma joinShell_all_present sid s rs : ∀ st o,
  sessions st !! sid = Some s →
  heap st !! s = Some o →
  mapM (joinShell_request sid) rs st
  = Some (replicate (length rs) None,
          after_calls (rs ≫= join_calls s)
            (set_heap (λ h, <[s := joined s rs o]> h) st)).
Proof.
  induction rs as [|r rs IH]; intros st o Hsid Hs.
  - rewrite mapM_nil_run. do 2 f_equal. state_eq; [|by rewrite app_nil_r].
    by rewrite list_insert_id.
  - rewrite mapM_cons_run. unfold joinShell_request at 1.
    rewrite (joinShell_present _ _ _ _ _ _ _ _ Hsid Hs). cbv beta iota zeta.
    erewrite IH; [|unfold_state; done|heap_lookup].
    cbn [length replicate]. do 2 f_equal. state_eq.
Qed.

(** C9: a successful [newShell(sid, ...)] gives the session the id [sid]
    of the caller and stores it under exactly that key; a second caller
    with the same id finds that session, joins it through [joinShell], and
    overwrites that same slot through [newShell]. *)
Theorem newShell_registers_under_caller_id
    (st st' : state) (sid : string) (sconn : ServerConn) (ch : Channel)
    (c : ctx) (a : answers) :
  sessionRegistry_newShell sid sconn ch c a st = Some (None, st') →
  let s := length (heap st) in
  sessions st' = <[sid := s]> (sessions st)
  ∧ (∃ o, heap st' !! s = Some o ∧ s_id o = sid)
  ∧ sessionRegistry_findSession sid st' = Some (Some s, st')
  ∧ (∀ r, ∃ st'', joinShell_request sid r st' = Some (None, st'')
                  ∧ sessions st'' = sessions st'
                  ∧ length (heap st'') = length (heap st'))
  ∧ (∀ r st'', newShell_request sid r st' = Some (None, st'') →
               sessions st'' = <[sid := length (heap st')]> (sessions st)
               ∧ dom (sessions st'') = dom (sessions st')).
Proof.
  intros (t & slots & calls & Ht & Hr & ->)%newShell_nil_inv s.
  cbn [sessions heap]. split_and!.
  - done.
  - eexists. split; [apply lookup_last_alloc | done].
  - rewrite findSession_run. cbn [sessions]. by rewrite lookup_insert_eq.
  - intros r. eexists. unfold joinShell_request. split.
    + eapply joinShell_present; cbn [sessions heap];
        [apply lookup_insert_eq | apply lookup_last_alloc].
    + unfold_state. by rewrite length_insert.
  - intros r st'' (t2 & slots2 & calls2 & _ & _ & ->)%newShell_nil_inv.
    cbn [sessions heap]. rewrite insert_insert_eq. split; [done|].
    rewrite !dom_insert_L. set_solver.
Qed.

Lemma newShell_one_session :
  sessionRegistry_newShell "s" 5 6 7 (shell_ok "p1" 3) newSessionRegistry
  = Some (None, one_session).
Proof. reflexivity. Qed.

Lemma newShell_registers_under_caller_id_witness :
  sessions one_session = <["s" := 0]> ∅
  ∧ (∃ o, heap one_session !! 0 = Some o ∧ s_id o = "s").
Proof.
  destruct (newShell_registers_under_caller_id newSessionRegistry one_session
              "s" 5 6 7 (shell_ok "p1" 3)) as (H1 & H2 & _).
  - reflexivity.
  - exact (conj H1 H2).
Defined.

Lemma open_request_nil_inv e sid r st st1 :
  (e = via_joinShell → sessions st !! sid = None) →
  open_request e sid r st = Some (None, st1) →
  ∃ t slots calls,
    takes (ctx_term st) (r_ctx r) (r_answers r) t slots calls
    ∧ let s := length (heap st) in
      st1 = {| sessions := <[sid := s]> (sessions st);
               heap := heap st ++ [started s (party_of s r) t (blank_session sid)];
               ctx_term := slots;
               trace := trace st ++ calls ++ start_calls s (party_of s r) t |}.
Proof.
  intros Habsent Hrun.
  assert (Hnew : newShell_request sid r st = Some (None, st1)).
  { destruct e; [done|]. cbn in Hrun. unfold joinShell_request in Hrun.
    by rewrite joinShell_absent in Hrun by auto. }
  apply newShell_nil_inv in Hnew as (t & slots & calls & Ht & _ & ->).
  by exists t, slots, calls.
Qed.

(** C1, as the code has it: when the first call for an id returns nil and
    every later call for that id is a [joinShell], the whole sequence
    takes exactly one terminal and starts exactly one command; the later
    calls return nil and add their parties to the one session object the
    first call allocated. *)
Theorem joinShell_shares_one_terminal
    (st st1 : state) (e : entry) (sid : string) (r : request)
    (rs : list request) :
  (e = via_joinShell → sessions st !! sid = None) →
  open_request e sid r st = Some (None, st1) →
  let s := length (heap st) in
  ∃ st' calls t,
    mapM (joinShell_request sid) rs st1 = Some (replicate (length rs) None, st')
    ∧ trace st' = trace st ++ calls
    ∧ terminals_taken calls = 1
    ∧ processes_started calls = 1
    ∧ sessions st' = <[sid := s]> (sessions st)
    ∧ heap st'
      = heap st ++ [joined s rs (started s (party_of s r) t (blank_session sid))].
Proof.
  intros Habsent Hopen s.
  destruct (open_request_nil_inv _ _ _ _ _ Habsent Hopen)
    as (t & slots & calls & Ht & ->).
  eexists _, (calls ++ start_calls s (party_of s r) t ++ (rs ≫= join_calls s)), t.
  split_and!.
  - eapply joinShell_all_present; cbn [sessions heap];
      [apply lookup_insert_eq | apply lookup_last_alloc].
  - unfold_state. by rewrite <- !app_assoc.
  - rewrite !terminals_taken_app.
    destruct (takes_counts _ _ _ _ _ _ Ht) as [-> _].
    by destruct (joins_count s rs) as [-> _].
  - rewrite !processes_started_app.
    destruct (takes_counts _ _ _ _ _ _ Ht) as [_ ->].
    by destruct (joins_count s rs) as [_ ->].
  - done.
  - unfold_state. apply insert_last_alloc.
Qed.

Lemma joinShell_shares_one_terminal_witness :
  ∃ st' calls t,
    mapM (joinShell_request "s") [request2] one_session = Some ([None], st')
    ∧ trace st' = calls
    ∧ terminals_taken calls = 1
    ∧ processes_started calls = 1
    ∧ sessions st' = <["s" := 0]> ∅
    ∧ heap st' = [joined 0 [request2] (started 0 party1 t (blank_session "s"))].
Proof.
  apply (joinShell_shares_one_terminal newSessionRegistry one_session
           via_joinShell "s" request1 [request2]); reflexivity.
Defined.

(** C1 as stated fails: [newShell] never looks the id up, so two
    [newShell] calls with one id take two terminals and start two
    commands; and after a [joinShell] whose command failed to start, the
    next [joinShell] for the id allocates a second terminal. *)
Lemma newShell_twice_counterexample :
  (newShell_request "s" request1 newSessionRegistry = Some (None, one_session)
   ∧ newShell_request "s" request2 one_session = Some (None, two_sessions)
   ∧ terminals_taken (trace two_sessions) = 2
   ∧ processes_started (trace two_sessions) = 2
   ∧ length (heap two_sessions) = 2)
  ∧ (joinShell_request "s" request_fails newSessionRegistry
     = Some (Some (External 2), failed_start)
     ∧ joinShell_request "s" request2 failed_start = Some (None, second_attempt)
     ∧ terminals_taken (trace second_attempt) = 2
     ∧ processes_started (trace second_attempt) = 2).
Proof. split_and!; vm_compute; reflexivity. Qed.

(** After the two [newShell] calls the first party can no longer leave:
    its [Close] looks the id up, finds the second session, and fails, so
    the terminal of the first session is never closed. *)
Lemma party_Close_after_replacement :
  party_Close party1 None two_sessions
  = Some (Some (party_not_found "p1"), two_sessions).
Proof. vm_compute. reflexivity. Qed.

(** ** The last party closes the session *)

Lemma with_party_keyed p o : keyed o → keyed (with_party p o).
Proof. intros Hk. by apply map_Forall_insert_2. Qed.

Lemma without_party_keyed id o : keyed o → keyed (without_party id o).
Proof. intros Hk. by apply map_Forall_delete. Qed.

Lemma joined_cons s r rs o :
  joined s (r :: rs) o = joined s rs (with_party (party_of s r) o).
Proof. reflexivity. Qed.

Lemma joined_fields s rs : ∀ o,
  s_id (joined s rs o) = s_id o
  ∧ s_t (joined s rs o) = s_t o
  ∧ dom (s_parties (joined s rs o)) = dom (s_parties o) ∪ list_to_set (uuids rs)
  ∧ (keyed o → keyed (joined s rs o)).
Proof.
  induction rs as [|r rs IH]; intros o.
  - cbn. split_and!; [done..| |done].
    by rewrite union_empty_r_L.
  - destruct (IH (with_party (party_of s r) o)) as (Hid & Ht & Hdom & Hk).
    rewrite joined_cons. split_and!.
    + by rewrite Hid.
    + by rewrite Ht.
    + rewrite Hdom. cbn [s_parties with_party set_writer set_parties uuids fmap
                         list_fmap list_to_set party_of newParty p_id].
      rewrite dom_insert_L.
      by rewrite (comm_L (∪) {[_]} (dom _)), (assoc_L (∪)).
    + intros Hko. by apply Hk, with_party_keyed.
Qed.

Lemma remove_fresh_id (x : string) (Y : gset string) :
  x ∉ Y → ({[x]} ∪ Y) ∖ {[x]} = Y.
Proof.
  intros Hx. apply set_eq. intros y.
  rewrite elem_of_difference, elem_of_union, elem_of_singleton.
  split.
  - by intros [[->|Hy] Hne].
  - intros Hy. split; [by right|]. by intros ->.
Qed.

Lemma last_id_listed (init : list (string * option error)) pid closed :
  pid ∈ (list_to_set (init ++ [(pid, closed)]).*1 : gset string).
Proof.
  rewrite fmap_app, list_to_set_app_L. apply elem_of_union_r.
  cbn. apply elem_of_union_l. by apply elem_of_singleton.
Qed.

Lemma leaveShell_all sid s t init : ∀ pid closed st o,
  sessions st !! sid = Some s →
  heap st !! s = Some o →
  s_id o = sid →
  s_t o = Some t →
  keyed o →
  NoDup (init ++ [(pid, closed)]).*1 →
  dom (s_parties o) = list_to_set (init ++ [(pid, closed)]).*1 →
  ∃ st',
    mapM (leaveShell_request sid) (init ++ [(pid, closed)]) st
    = Some (replicate (length init) None ++ [closed], st')
    ∧ sessions st' = delete sid (sessions st)
    ∧ trace st' = trace st ++ [TermClose t]
    ∧ ctx_term st' = ctx_term st.
Proof.
  induction init as [|[pid' closed'] init IH];
    intros pid closed st o Hsid Hs Hid Ht Hk Hnd Hdom.
  - cbn [app fmap list_fmap fst list_to_set] in Hdom.
    rewrite union_empty_r_L in Hdom.
    assert (is_Some (s_parties o !! pid)) as [p Hp].
    { apply elem_of_dom. rewrite Hdom. by apply elem_of_singleton. }
    pose proof (Hk _ _ Hp) as Hpid. cbn in Hpid.
    assert (delete (p_id p) (s_parties o) = ∅) as Hempty.
    { apply dom_empty_iff_L. rewrite dom_delete_L, Hdom, Hpid.
      apply difference_diag_L. }
    eexists. split.
    + cbn [app]. rewrite mapM_cons_run. unfold leaveShell_request at 1.
      cbn [fst snd].
      rewrite (leaveShell_last_party _ _ _ _ _ _ _ _ Hsid Hs Hp Hempty Ht).
      by rewrite mapM_nil_run.
    + cbn [sessions trace ctx_term]. by rewrite Hid.
  - cbn [app fmap list_fmap fst list_to_set] in Hdom, Hnd.
    apply NoDup_cons in Hnd as [Hfresh Hnd].
    assert (is_Some (s_parties o !! pid')) as [p Hp].
    { apply elem_of_dom. rewrite Hdom. apply elem_of_union_l.
      by apply elem_of_singleton. }
    pose proof (Hk _ _ Hp) as Hpid. cbn in Hpid.
    assert (Hdom' : dom (s_parties (without_party (p_id p) o))
                    = list_to_set (init ++ [(pid, closed)]).*1).
    { cbn [s_parties without_party set_writer set_parties].
      rewrite dom_delete_L, Hdom, Hpid.
      apply remove_fresh_id. by rewrite elem_of_list_to_set. }
    assert (delete (p_id p) (s_parties o) ≠ ∅) as Hne.
    { intros Hempty%dom_empty_iff_L.
      cbn [s_parties without_party set_writer set_parties] in Hdom'.
      pose proof (last_id_listed init pid closed) as Hin.
      rewrite <- Hdom', Hempty in Hin. by apply not_elem_of_empty in Hin. }
    destruct (IH pid closed
                (set_heap (λ h, <[s := without_party (p_id p) o]> h) st)
                (without_party (p_id p) o))
      as (st' & Hrun & Hsess & Htr & Hctx).
    + exact Hsid.
    + heap_lookup.
    + exact Hid.
    + exact Ht.
    + by apply without_party_keyed.
    + exact Hnd.
    + exact Hdom'.
    + exists st'. split; [|by split_and!].
      cbn [app]. rewrite mapM_cons_run. unfold leaveShell_request at 1.
      cbn [fst snd].
      rewrite (leaveShell_others_remain _ _ _ _ _ _ _ Hsid Hs Hp Hne).
      by rewrite Hrun.
Qed.

Lemma started_fields s p t sid :
  s_id (started s p t (blank_session sid)) = sid
  ∧ s_t (started s p t (blank_session sid)) = Some t
  ∧ s_parties (started s p t (blank_session sid)) = {[p_id p := p]}
  ∧ keyed (started s p t (blank_session sid)).
Proof.
  split_and!; [done..|].
  unfold keyed. cbn. by apply map_Forall_insert_2.
Qed.

(** C2: parties attached to one session through a first call and [k-1]
    [joinShell] calls, then [leaveShell] for the [k] party ids in any
    order: every call but the last returns nil, the last returns what the
    terminal's [Close] returned, the session is gone from the table even
    when that is an error, and [Close] is called exactly once. *)
Theorem last_party_closes
    (st st1 : state) (e : entry) (sid : string) (r : request)
    (rs : list request) (init : list (string * option error))
    (pid : string) (closed : option error) :
  (e = via_joinShell → sessions st !! sid = None) →
  open_request e sid r st = Some (None, st1) →
  NoDup (uuids (r :: rs)) →
  (init ++ [(pid, closed)]).*1 ≡ₚ uuids (r :: rs) →
  ∃ st2 st3 o t,
    mapM (joinShell_request sid) rs st1 = Some (replicate (length rs) None, st2)
    ∧ sessions st2 !! sid = Some (length (heap st))
    ∧ heap st2 !! length (heap st) = Some o
    ∧ s_t o = Some t
    ∧ dom (s_parties o) = list_to_set (uuids (r :: rs))
    ∧ mapM (leaveShell_request sid) (init ++ [(pid, closed)]) st2
      = Some (replicate (length init) None ++ [closed], st3)
    ∧ sessions st3 !! sid = None
    ∧ trace st3 = trace st2 ++ [TermClose t].
Proof.
  intros Habsent Hopen Hnd Hperm.
  destruct (open_request_nil_inv _ _ _ _ _ Habsent Hopen)
    as (t & slots & calls & Ht & ->).
  set (s := length (heap st)) in *.
  set (o1 := started s (party_of s r) t (blank_session sid)).
  destruct (started_fields s (party_of s r) t sid) as (Hid1 & Ht1 & Hp1 & Hk1).
  destruct (joined_fields s rs o1) as (Hid & Hto & Hdom & Hk).
  fold o1 in Hid1, Ht1, Hp1, Hk1.
  rewrite Hp1, dom_singleton_L in Hdom.
  change ({[p_id (party_of s r)]} ∪ list_to_set (uuids rs))
    with (list_to_set (C := gset string) (uuids (r :: rs))) in Hdom.
  match goal with
  | |- context [mapM _ rs ?st] => set (st1 := st)
  end.
  assert (Hsid1 : sessions st1 !! sid = Some s) by apply lookup_insert_eq.
  assert (Hs1 : heap st1 !! s = Some o1) by apply lookup_last_alloc.
  pose proof (joinShell_all_present sid s rs st1 o1 Hsid1 Hs1) as Hjoin.
  set (st2 := after_calls _ _) in Hjoin.
  assert (Hs2 : heap st2 !! s = Some (joined s rs o1)).
  { subst st2. heap_lookup. }
  destruct (leaveShell_all sid s t init pid closed st2 (joined s rs o1))
    as (st3 & Hleave & Hsess & Htr & _).
  - exact Hsid1.
  - exact Hs2.
  - by rewrite Hid.
  - by rewrite Hto.
  - by apply Hk.
  - by rewrite Hperm.
  - rewrite Hdom. symmetry. by apply list_to_set_perm_L.
  - exists st2, st3, (joined s rs o1), t. split_and!.
    + exact Hjoin.
    + exact Hsid1.
    + exact Hs2.
    + by rewrite Hto.
    + exact Hdom.
    + exact Hleave.
    + rewrite Hsess. apply lookup_delete_eq.
    + exact Htr.
Qed.

Lemma last_party_closes_witness :
  ∃ st2 st3 o t,
    mapM (joinShell_request "s") [request2; request3] one_session
    = Some ([None; None], st2)
    ∧ sessions st2 !! "s" = Some 0
    ∧ heap st2 !! 0 = Some o
    ∧ s_t o = Some t
    ∧ dom (s_parties o) = list_to_set ["p1"; "p2"; "p3"]
    ∧ mapM (leaveShell_request "s")
        [("p2", None); ("p3", Some (External 1)); ("p1", Some (External 4))] st2
      = Some ([None; None; Some (External 4)], st3)
    ∧ sessions st3 !! "s" = None
    ∧ trace st3 = trace st2 ++ [TermClose t].
Proof.
  apply (last_party_closes newSessionRegistry one_session via_joinShell "s"
           request1 [request2; request3]
           [("p2", None); ("p3", Some (External 1))] "p1" (Some (External 4))).
  - reflexivity.
  - reflexivity.
  - apply (bool_decide_unpack _). vm_compute. reflexivity.
  - symmetry. apply (Permutation_cons_append ["p2"; "p3"] "p1").
Defined.

(** ** The sinks of a session *)

Lemma with_party_sinks p o : parties_are_sinks o → parties_are_sinks (with_party p o).
Proof.
  intros Ho id q. cbn. intros Hq.
  destruct (decide (p_id p = id)) as [<-|Hne].
  - rewrite lookup_insert_eq in Hq. injection Hq as <-. apply lookup_insert_eq.
  - rewrite lookup_insert_ne in Hq by done. rewrite lookup_insert_ne by done.
    by apply Ho.
Qed.

Lemma without_party_sinks id o :
  parties_are_sinks o → parties_are_sinks (without_party id o).
Proof.
  intros Ho id' q. cbn. intros Hq.
  destruct (decide (id = id')) as [<-|Hne].
  - by rewrite lookup_delete_eq in Hq.
  - rewrite lookup_delete_ne in Hq by done. rewrite lookup_delete_ne by done.
    by apply Ho.
Qed.

Lemma started_sinks s p t sid : parties_are_sinks (started s p t (blank_session sid)).
Proof.
  apply with_party_sinks. intros id q. cbn. by rewrite lookup_empty.
Qed.

Lemma joined_sinks s rs : ∀ o, parties_are_sinks o → parties_are_sinks (joined s rs o).
Proof.
  induction rs as [|r rs IH]; intros o Ho; [done|].
  rewrite joined_cons. by apply IH, with_party_sinks.
Qed.

Lemma joined_capture s rs : ∀ o,
  "capture" ∉ uuids rs →
  writers (s_writer (joined s rs o)) !! "capture"
  = writers (s_writer o) !! "capture".
Proof.
  induction rs as [|r rs IH]; intros o Hno; [done|].
  rewrite joined_cons. cbn in Hno.
  apply not_elem_of_cons in Hno as [Hne Hno]. rewrite IH by done.
  cbn. by rewrite lookup_insert_ne.
Qed.

(** X16: the broadcaster of a session that was started for the request
    [r] and joined by the requests [rs] reaches the capture buffer and
    every party of the session with one [Write], when no party id is
    ["capture"] and every sink takes the slice. *)
Lemma session_Write_reaches_capture_and_parties
    (chanWrite : Channel → bytes → Z * option error)
    (s : loc) (sid : string) (t : term) (r : request) (rs : list request)
    (range : gmap string ioWriter → list (string * ioWriter))
    (p : bytes) (st : state) :
  let o := joined s rs (started s (party_of s r) t (blank_session sid)) in
  let ord := range (writers (s_writer o)) in
  "capture" ∉ uuids (r :: rs) →
  visits (writers (s_writer o)) ord →
  (∀ kw, kw ∈ ord → accepts chanWrite kw.2 p) →
  multiWriter_Write chanWrite (s_writer o) range p st
    = Some ((len p, None), after_calls (writes_to ord p) st)
  ∧ SinkWrite (Buffer s) p ∈ writes_to ord p
  ∧ (∀ id q, s_parties o !! id = Some q → SinkWrite (Party q) p ∈ writes_to ord p).
Proof.
  intros o ord Hno Hv Hok. split_and!.
  - by apply Write_accepted.
  - apply (list_elem_of_fmap_2 (λ kw, SinkWrite kw.2 p) _ ("capture", Buffer s)).
    apply (visits_elem_of _ _ _ _ Hv). subst o.
    cbn in Hno. apply not_elem_of_cons in Hno as [Hne Hno].
    rewrite joined_capture by done. cbn. by rewrite lookup_insert_ne.
  - intros id q Hq.
    apply (list_elem_of_fmap_2 (λ kw, SinkWrite kw.2 p) _ (id, Party q)).
    apply (visits_elem_of _ _ _ _ Hv).
    by apply (joined_sinks s rs _ (started_sinks _ _ _ _)).
Qed.

(** ** The invariant of the registry *)

Lemma registry_wf_empty : registry_wf newSessionRegistry.
Proof. apply map_Forall_empty. Qed.

Lemma registry_wf_allocated st : registry_wf st → table_allocated st.
Proof.
  intros Hwf sid s Hs. destruct (Hwf sid s Hs) as (o & Ho & _).
  by eapply lookup_lt_Some.
Qed.

Lemma registered_started sid s p t :
  registered sid (started s p t (blank_session sid)).
Proof.
  destruct (started_fields s p t sid) as (Hid & Ht & Hp & Hk).
  split_and!; [done | by rewrite Ht | | done | apply started_sinks].
  rewrite Hp. apply insert_non_empty.
Qed.

Lemma registered_with_party sid p o :
  registered sid o → registered sid (with_party p o).
Proof.
  intros (Hid & Ht & Hne & Hk & Hsinks).
  split_and!; [done | done | apply insert_non_empty
              | by apply with_party_keyed | by apply with_party_sinks].
Qed.

Lemma registered_without_party sid id o :
  registered sid o → delete id (s_parties o) ≠ ∅ →
  registered sid (without_party id o).
Proof.
  intros (Hid & Ht & _ & Hk & Hsinks) Hne.
  split_and!; [done | done | done
              | by apply without_party_keyed | by apply without_party_sinks].
Qed.

(** The table and the objects it points to after an allocation. *)
Lemma registry_wf_alloc st o tbl slots tr :
  registry_wf st →
  tbl = sessions st →
  registry_wf {| sessions := tbl; heap := heap st ++ [o];
                 ctx_term := slots; trace := tr |}.
Proof.
  intros Hwf -> sid s Hs. cbn in Hs. destruct (Hwf sid s Hs) as (o' & Ho' & Hreg).
  exists o'. split; [|done]. cbn. by apply lookup_app_l_Some.
Qed.

(** The table after the object at [s], registered under [sid], has been
    replaced by another registered object. *)
Lemma registry_wf_update st sid s o o' :
  registry_wf st →
  sessions st !! sid = Some s →
  heap st !! s = Some o →
  registered sid o' →
  registry_wf (set_heap (λ h, <[s := o']> h) st).
Proof.
  intros Hwf Hsid Hs Hreg k sk Hk. cbn in Hk.
  destruct (Hwf k sk Hk) as (ok & Hok & Hregk). cbn [heap set_heap].
  destruct (decide (sk = s)) as [->|Hne].
  - assert (k = sid) as ->.
    { destruct (Hwf sid s Hsid) as (o2 & Ho2 & Hid2 & _).
      destruct Hregk as (Hidk & _). congruence. }
    exists o'. split; [by eapply lookup_update | done].
  - exists ok. split; [|done]. by rewrite list_lookup_insert_ne.
Qed.

Lemma registry_wf_after_calls evs st :
  registry_wf st → registry_wf (after_calls evs st).
Proof. done. Qed.

Theorem registry_wf_newShell sid sconn ch c a st r st' :
  registry_wf st →
  sessionRegistry_newShell sid sconn ch c a st = Some (r, st') →
  registry_wf st'.
Proof.
  intros Hwf Hrun.
  destruct (session_start_cases (ctx_term st) c a)
    as [(err & Hc & Ha)|[(t & slots & calls & err & Ht & Hr)
                        |(t & slots & calls & Ht & Hr)]].
  - rewrite (newShell_no_term _ _ _ _ _ _ _ Hc Ha) in Hrun.
    injection Hrun as _ <-. by apply registry_wf_alloc.
  - rewrite (newShell_run_failed _ _ _ _ _ _ _ _ _ _ Ht Hr) in Hrun.
    injection Hrun as _ <-. by apply registry_wf_alloc.
  - rewrite (newShell_ok _ _ _ _ _ _ _ _ _ Ht Hr) in Hrun.
    injection Hrun as _ <-.
    apply map_Forall_insert_2.
    + eexists. split; [apply lookup_last_alloc | apply registered_started].
    + intros k sk Hk. destruct (Hwf k sk Hk) as (ok & Hok & Hregk).
      exists ok. split; [|done]. cbn. by apply lookup_app_l_Some.
Qed.

Theorem registry_wf_joinShell sid sconn ch c a st r st' :
  registry_wf st →
  sessionRegistry_joinShell sid sconn ch c a st = Some (r, st') →
  registry_wf st'.
Proof.
  intros Hwf Hrun.
  destruct (sessions st !! sid) as [s|] eqn:Hsid.
  - destruct (Hwf sid s Hsid) as (o & Ho & Hreg).
    rewrite (joinShell_present _ _ _ _ _ _ _ _ Hsid Ho) in Hrun.
    injection Hrun as _ <-. apply registry_wf_after_calls.
    eapply registry_wf_update; [done..|]. by apply registered_with_party.
  - rewrite joinShell_absent in Hrun by done.
    by eapply registry_wf_newShell.
Qed.

Theorem registry_wf_leaveShell sid pid closed st r st' :
  registry_wf st →
  sessionRegistry_leaveShell sid pid closed st = Some (r, st') →
  registry_wf st'.
Proof.
  intros Hwf Hrun.
  destruct (sessions st !! sid) as [s|] eqn:Hsid.
  2: { rewrite leaveShell_absent in Hrun by done. by injection Hrun as _ <-. }
  destruct (Hwf sid s Hsid) as (o & Ho & Hreg).
  destruct (s_parties o !! pid) as [p|] eqn:Hp.
  2: { rewrite (leaveShell_unknown_party _ _ _ _ _ _ Hsid Ho Hp) in Hrun.
       by injection Hrun as _ <-. }
  destruct (decide (delete (p_id p) (s_parties o) = ∅)) as [Hempty|Hne].
  - destruct Hreg as (Hid & [t Ht] & _).
    rewrite (leaveShell_last_party _ _ _ _ _ _ _ _ Hsid Ho Hp Hempty Ht) in Hrun.
    injection Hrun as _ <-. rewrite Hid.
    intros k sk Hk. cbn in Hk.
    apply lookup_delete_Some in Hk as [Hksid Hk].
    destruct (Hwf k sk Hk) as (ok & Hok & Hregk).
    exists ok. split; [|done]. cbn.
    rewrite list_lookup_insert_ne; [done|].
    intros <-. destruct Hregk as (Hidk & _). congruence.
  - rewrite (leaveShell_others_remain _ _ _ _ _ _ _ Hsid Ho Hp Hne) in Hrun.
    injection Hrun as _ <-.
    eapply registry_wf_update; [done..|]. by apply registered_without_party.
Qed.

(** * Further properties of the code *)

(** ** The invariant along calls *)

Lemma tidy_started sid s p t :
  p_s p = s → tidy sid s (started s p t (blank_session sid)).
Proof.
  intros Hs. split_and!.
  - apply registered_started.
  - cbn. apply map_Forall_insert_2; [done | apply map_Forall_empty].
  - cbn. apply map_Forall_insert_2; [done|].
    apply map_Forall_insert_2; [done | apply map_Forall_empty].
Qed.

Lemma tidy_with_party sid s p o :
  p_s p = s → tidy sid s o → tidy sid s (with_party p o).
Proof.
  intros Hs (Hreg & Hback & Hsinks). split_and!.
  - by apply registered_with_party.
  - cbn. by apply map_Forall_insert_2.
  - cbn. by apply map_Forall_insert_2.
Qed.

Lemma tidy_without_party sid s id o :
  tidy sid s o → delete id (s_parties o) ≠ ∅ → tidy sid s (without_party id o).
Proof.
  intros (Hreg & Hback & Hsinks) Hne. split_and!.
  - by apply registered_without_party.
  - cbn. by apply map_Forall_delete.
  - cbn. by apply map_Forall_delete.
Qed.

Lemma registry_inv_wf st : registry_inv st → registry_wf st.
Proof.
  intros Hinv sid s Hs. destruct (Hinv sid s Hs) as (o & Ho & Hreg & _).
  by exists o.
Qed.

Lemma registry_inv_empty : registry_inv newSessionRegistry.
Proof. apply map_Forall_empty. Qed.

Lemma registry_inv_alloc st o tbl slots tr :
  registry_inv st →
  tbl = sessions st →
  registry_inv {| sessions := tbl; heap := heap st ++ [o];
                  ctx_term := slots; trace := tr |}.
Proof.
  intros Hinv -> sid s Hs. cbn in Hs. destruct (Hinv sid s Hs) as (o' & Ho' & Ht).
  exists o'. split; [|done]. cbn. by apply lookup_app_l_Some.
Qed.

(** Two ids of the table never share a session object. *)
Lemma registry_inv_inj st sid1 sid2 s :
  registry_inv st →
  sessions st !! sid1 = Some s → sessions st !! sid2 = Some s → sid1 = sid2.
Proof.
  intros Hinv H1 H2.
  destruct (Hinv sid1 s H1) as (o1 & Ho1 & (Hid1 & _) & _).
  destruct (Hinv sid2 s H2) as (o2 & Ho2 & (Hid2 & _) & _).
  congruence.
Qed.

Lemma registry_inv_update st sid s o' :
  registry_inv st →
  sessions st !! sid = Some s →
  tidy sid s o' →
  registry_inv (set_heap (λ h, <[s := o']> h) st).
Proof.
  intros Hinv Hsid Ht k sk Hk. cbn in Hk.
  destruct (Hinv k sk Hk) as (ok & Hok & Htk). cbn [heap set_heap].
  destruct (decide (sk = s)) as [->|Hne].
  - rewrite (registry_inv_inj st k sid s Hinv Hk Hsid).
    exists o'. split; [by eapply lookup_update | done].
  - exists ok. split; [|done]. by rewrite list_lookup_insert_ne.
Qed.

Lemma registry_broadcastResult_found sid s o r range st :
  sessions st !! sid = Some s →
  heap st !! s = Some o →
  sessionRegistry_broadcastResult sid r range st
  = Some (None, after_calls (results_to (range (s_parties o)) r) st).
Proof.
  intros Hsid Hs. unfold sessionRegistry_broadcastResult.
  rewrite bind_run, findSession_run, Hsid. cbv beta iota.
  by rewrite bind_run, (session_broadcastResult_run _ _ _ _ _ Hs).
Qed.

Lemma registry_broadcastResult_absent sid r range st :
  sessions st !! sid = None →
  sessionRegistry_broadcastResult sid r range st
  = Some (Some (session_not_found sid), st).
Proof.
  intros Hsid. unfold sessionRegistry_broadcastResult.
  by rewrite bind_run, findSession_run, Hsid.
Qed.

Lemma newShell_inv sid sconn ch c a st res st' :
  registry_inv st →
  sessionRegistry_newShell sid sconn ch c a st = Some (res, st') →
  registry_inv st'.
Proof.
  intros Hinv Hrun.
  destruct (session_start_cases (ctx_term st) c a)
    as [(err & Hc & Ha)|[(t & slots & calls & err & Ht & Hr)
                        |(t & slots & calls & Ht & Hr)]].
  - rewrite (newShell_no_term _ _ _ _ _ _ _ Hc Ha) in Hrun.
    injection Hrun as _ <-. by apply registry_inv_alloc.
  - rewrite (newShell_run_failed _ _ _ _ _ _ _ _ _ _ Ht Hr) in Hrun.
    injection Hrun as _ <-. by apply registry_inv_alloc.
  - rewrite (newShell_ok _ _ _ _ _ _ _ _ _ Ht Hr) in Hrun.
    injection Hrun as _ <-.
    apply map_Forall_insert_2.
    + eexists. split; [apply lookup_last_alloc | by apply tidy_started].
    + intros k sk Hk. destruct (Hinv k sk Hk) as (ok & Hok & Htk).
      exists ok. split; [|done]. cbn. by apply lookup_app_l_Some.
Qed.

Lemma joinShell_inv sid sconn ch c a st res st' :
  registry_inv st →
  sessionRegistry_joinShell sid sconn ch c a st = Some (res, st') →
  registry_inv st'.
Proof.
  intros Hinv Hrun.
  destruct (sessions st !! sid) as [s|] eqn:Hsid.
  - destruct (Hinv sid s Hsid) as (o & Ho & Ht).
    rewrite (joinShell_present _ _ _ _ _ _ _ _ Hsid Ho) in Hrun.
    injection Hrun as _ <-.
    apply (registry_inv_update st sid s _ Hinv Hsid).
    by apply tidy_with_party.
  - rewrite joinShell_absent in Hrun by done. by eapply newShell_inv.
Qed.

Lemma leaveShell_inv sid pid closed st res st' :
  registry_inv st →
  sessionRegistry_leaveShell sid pid closed st = Some (res, st') →
  registry_inv st'.
Proof.
  intros Hinv Hrun.
  destruct (sessions st !! sid) as [s|] eqn:Hsid.
  2: { rewrite leaveShell_absent in Hrun by done. by injection Hrun as _ <-. }
  destruct (Hinv sid s Hsid) as (o & Ho & Ht).
  destruct (s_parties o !! pid) as [p|] eqn:Hp.
  2: { rewrite (leaveShell_unknown_party _ _ _ _ _ _ Hsid Ho Hp) in Hrun.
       by injection Hrun as _ <-. }
  destruct (decide (delete (p_id p) (s_parties o) = ∅)) as [Hempty|Hne].
  - destruct Ht as ((Hid & [t Hterm] & _) & _).
    rewrite (leaveShell_last_party _ _ _ _ _ _ _ _ Hsid Ho Hp Hempty Hterm) in Hrun.
    injection Hrun as _ <-. rewrite Hid.
    intros k sk Hk. cbn in Hk.
    apply lookup_delete_Some in Hk as [Hksid Hk].
    destruct (Hinv k sk Hk) as (ok & Hok & Htk).
    exists ok. split; [|done]. cbn.
    rewrite list_lookup_insert_ne; [done|].
    intros <-. by destruct Hksid, (registry_inv_inj st sid k s Hinv Hsid Hk).
  - rewrite (leaveShell_others_remain _ _ _ _ _ _ _ Hsid Ho Hp Hne) in Hrun.
    injection Hrun as _ <-.
    apply (registry_inv_update st sid s _ Hinv Hsid).
    by apply tidy_without_party.
Qed.

Lemma run_call_inv c st res st' :
  registry_inv st → run_call c st = Some (res, st') → registry_inv st'.
Proof.
  intros Hinv Hrun. destruct c as [sid r|sid r|sid pid closed|sid r range].
  - by eapply newShell_inv.
  - by eapply joinShell_inv.
  - by eapply leaveShell_inv.
  - cbn in Hrun. destruct (sessions st !! sid) as [s|] eqn:Hsid.
    + destruct (Hinv sid s Hsid) as (o & Ho & _).
      rewrite (registry_broadcastResult_found _ _ _ _ _ _ Hsid Ho) in Hrun.
      by injection Hrun as _ <-.
    + rewrite registry_broadcastResult_absent in Hrun by done.
      by injection Hrun as _ <-.
Qed.

Lemma newShell_total sid sconn ch c a st :
  ∃ res st', sessionRegistry_newShell sid sconn ch c a st = Some (res, st').
Proof.
  destruct (session_start_cases (ctx_term st) c a)
    as [(err & Hc & Ha)|[(t & slots & calls & err & Ht & Hr)
                        |(t & slots & calls & Ht & Hr)]].
  - do 2 eexists. by apply newShell_no_term.
  - do 2 eexists. by eapply newShell_run_failed.
  - do 2 eexists. by eapply newShell_ok.
Qed.

Lemma run_call_total c st :
  registry_inv st → ∃ res st', run_call c st = Some (res, st').
Proof.
  intros Hinv. destruct c as [sid r|sid r|sid pid closed|sid r range]; cbn.
  - apply newShell_total.
  - unfold joinShell_request. destruct (sessions st !! sid) as [s|] eqn:Hsid.
    + destruct (Hinv sid s Hsid) as (o & Ho & _).
      do 2 eexists. by eapply joinShell_present.
    + rewrite joinShell_absent by done. apply newShell_total.
  - destruct (sessions st !! sid) as [s|] eqn:Hsid.
    2: { do 2 eexists. by apply leaveShell_absent. }
    destruct (Hinv sid s Hsid) as (o & Ho & (_ & [t Hterm] & _) & _).
    destruct (s_parties o !! pid) as [p|] eqn:Hp.
    2: { do 2 eexists. by eapply leaveShell_unknown_party. }
    destruct (decide (delete (p_id p) (s_parties o) = ∅)) as [Hempty|Hne].
    + do 2 eexists. by eapply leaveShell_last_party.
    + do 2 eexists. by eapply leaveShell_others_remain.
  - destruct (sessions st !! sid) as [s|] eqn:Hsid.
    + destruct (Hinv sid s Hsid) as (o & Ho & _).
      do 2 eexists. by eapply registry_broadcastResult_found.
    + do 2 eexists. by apply registry_broadcastResult_absent.
Qed.

(** X1: every call on the registry keeps the invariant: each id of the
    table points to an allocated session object that carries the id, has
    a terminal and at least one party, stores every party under the id of
    the party, has every party as a sink of its broadcaster, and whose
    parties point back to it. *)
Theorem registry_invariant_kept (c : call) (st st' : state) (res : option error) :
  registry_inv st →
  run_call c st = Some (res, st') →
  registry_inv st'.
Proof. apply run_call_inv. Qed.

(** X2: from every state that satisfies the invariant, whatever
    terminals the contexts carry, every sequence of calls runs to its end
    with one result per call: no call finds an id in the table whose
    session object is missing, and the final state satisfies the invariant
    again.  The handles a call is given are valid objects, as everywhere
    in this embedding. *)
Theorem registry_calls_never_panic (cs : list call) (st0 : state) :
  registry_inv st0 →
  ∃ results st,
    mapM run_call cs st0 = Some (results, st)
    ∧ length results = length cs
    ∧ registry_inv st.
Proof.
  revert st0. induction cs as [|c cs IH]; intros st0 Hinv.
  - exists [], st0. by rewrite mapM_nil_run.
  - destruct (run_call_total c st0 Hinv) as (res & st1 & Hrun).
    destruct (IH st1 (run_call_inv _ _ _ _ Hinv Hrun))
      as (rs & st2 & Hrest & Hlen & Hinv2).
    exists (res :: rs), st2. rewrite mapM_cons_run, Hrun, Hrest.
    split_and!; [done | by cbn; rewrite Hlen | done].
Qed.

(** ** Calls leave the other sessions alone *)

Lemma run_call_frame c st res st' :
  registry_inv st →
  run_call c st = Some (res, st') →
  ∀ sid', sid' ≠ call_sid c →
    sessions st' !! sid' = sessions st !! sid'
    ∧ ∀ s', sessions st !! sid' = Some s' → heap st' !! s' = heap st !! s'.
Proof.
  intros Hinv Hrun sid' Hne.
  assert (Halloc : ∀ x s', sessions st !! sid' = Some s' →
                     (heap st ++ [x]) !! s' = heap st !! s').
  { intros x s' Hs'. destruct (Hinv sid' s' Hs') as (o' & Ho' & _).
    rewrite Ho'. by apply lookup_app_l_Some. }
  assert (Hupd : ∀ s s' x, sessions st !! call_sid c = Some s →
                   sessions st !! sid' = Some s' →
                   <[s := x]> (heap st) !! s' = heap st !! s').
  { intros s s' x Hs Hs'. apply list_lookup_insert_ne. intros ->.
    by destruct Hne, (registry_inv_inj st (call_sid c) sid' s' Hinv Hs Hs'). }
  destruct c as [sid r|sid r|sid pid closed|sid r range]; cbn in Hne, Hupd.
  - cbn in Hrun. unfold newShell_request in Hrun.
    destruct (session_start_cases (ctx_term st) (r_ctx r) (r_answers r))
      as [(err & Hc & Ha)|[(t & slots & calls & err & Ht & Hr)
                          |(t & slots & calls & Ht & Hr)]].
    + rewrite (newShell_no_term _ _ _ _ _ _ _ Hc Ha) in Hrun.
      injection Hrun as _ <-. cbn. split; [done | apply Halloc].
    + rewrite (newShell_run_failed _ _ _ _ _ _ _ _ _ _ Ht Hr) in Hrun.
      injection Hrun as _ <-. cbn. split; [done | apply Halloc].
    + rewrite (newShell_ok _ _ _ _ _ _ _ _ _ Ht Hr) in Hrun.
      injection Hrun as _ <-. cbn.
      split; [by rewrite lookup_insert_ne | apply Halloc].
  - cbn in Hrun. unfold joinShell_request in Hrun.
    destruct (sessions st !! sid) as [s|] eqn:Hsid.
    + destruct (Hinv sid s Hsid) as (o & Ho & _).
      rewrite (joinShell_present _ _ _ _ _ _ _ _ Hsid Ho) in Hrun.
      injection Hrun as _ <-. cbn. split; [done | intros s' Hs'; by apply Hupd].
    + rewrite joinShell_absent in Hrun by done.
      destruct (session_start_cases (ctx_term st) (r_ctx r) (r_answers r))
        as [(err & Hc & Ha)|[(t & slots & calls & err & Ht & Hr)
                            |(t & slots & calls & Ht & Hr)]].
      * rewrite (newShell_no_term _ _ _ _ _ _ _ Hc Ha) in Hrun.
        injection Hrun as _ <-. cbn. split; [done | apply Halloc].
      * rewrite (newShell_run_failed _ _ _ _ _ _ _ _ _ _ Ht Hr) in Hrun.
        injection Hrun as _ <-. cbn. split; [done | apply Halloc].
      * rewrite (newShell_ok _ _ _ _ _ _ _ _ _ Ht Hr) in Hrun.
        injection Hrun as _ <-. cbn.
        split; [by rewrite lookup_insert_ne | apply Halloc].
  - cbn in Hrun. destruct (sessions st !! sid) as [s|] eqn:Hsid.
    2: { rewrite leaveShell_absent in Hrun by done. by injection Hrun as _ <-. }
    destruct (Hinv sid s Hsid) as (o & Ho & (Hid & [t Hterm] & _) & _).
    destruct (s_parties o !! pid) as [p|] eqn:Hp.
    2: { rewrite (leaveShell_unknown_party _ _ _ _ _ _ Hsid Ho Hp) in Hrun.
         by injection Hrun as _ <-. }
    destruct (decide (delete (p_id p) (s_parties o) = ∅)) as [Hempty|Hne'].
    + rewrite (leaveShell_last_party _ _ _ _ _ _ _ _ Hsid Ho Hp Hempty Hterm) in Hrun.
      injection Hrun as _ <-. cbn. rewrite Hid.
      split; [by rewrite lookup_delete_ne | intros s' Hs'; by apply Hupd].
    + rewrite (leaveShell_others_remain _ _ _ _ _ _ _ Hsid Ho Hp Hne') in Hrun.
      injection Hrun as _ <-. cbn. split; [done | intros s' Hs'; by apply Hupd].
  - cbn in Hrun. destruct (sessions st !! sid) as [s|] eqn:Hsid.
    + destruct (Hinv sid s Hsid) as (o & Ho & _).
      rewrite (registry_broadcastResult_found _ _ _ _ _ _ Hsid Ho) in Hrun.
      by injection Hrun as _ <-.
    + rewrite registry_broadcastResult_absent in Hrun by done.
      by injection Hrun as _ <-.
Qed.

(** X3: a call that names one session id leaves every other id of the
    table as it was: the same entry, pointing to the same, unchanged
    session object. *)
Theorem other_sessions_untouched
    (c : call) (st st' : state) (res : option error) (sid' : string) :
  registry_inv st →
  run_call c st = Some (res, st') →
  sid' ≠ call_sid c →
  sessions st' !! sid' = sessions st !! sid'
  ∧ ∀ s', sessions st !! sid' = Some s' → heap st' !! s' = heap st !! s'.
Proof. intros Hinv Hrun. by apply run_call_frame with (res := res). Qed.

(** ** Joining *)

(** X4: [joinShell] on an id the table does not hold does not report the id
    as missing: it does what [newShell] does, so it either registers a new
    session under the id or returns the error of the terminal allocation
    or of the command, with the table unchanged. *)
Theorem joinShell_unknown_id_creates
    (sid : string) (sconn : ServerConn) (ch : Channel) (c : ctx) (a : answers)
    (st : state) :
  sessions st !! sid = None →
  sessionRegistry_joinShell sid sconn ch c a st
    = sessionRegistry_newShell sid sconn ch c a st
  ∧ ∃ res st',
      sessionRegistry_joinShell sid sconn ch c a st = Some (res, st')
      ∧ match res with
        | None => sessions st' = <[sid := length (heap st)]> (sessions st)
                  ∧ run a = None
        | Some e => sessions st' = sessions st
                    ∧ (newTerm a = inr e ∨ run a = Some e)
        end.
Proof.
  intros Hsid. rewrite joinShell_absent by done. split; [done|].
  destruct (session_start_cases (ctx_term st) c a)
    as [(err & Hc & Ha)|[(t & slots & calls & err & Ht & Hr)
                        |(t & slots & calls & Ht & Hr)]].
  - do 2 eexists. split; [by apply newShell_no_term|]. cbn. auto.
  - do 2 eexists. split; [by eapply newShell_run_failed|]. cbn. auto.
  - do 2 eexists. split; [by eapply newShell_ok|]. cbn. auto.
Qed.

(** X5: [joinShell] on an id the table holds always returns nil, whatever
    the terminal allocation and the command would answer: it allocates no
    session, leaves the table and the inherited terminal of every context
    (the joiner's too) as they are, and only adds the party to the session
    object, registers it as a closer and starts its input pump. *)
Theorem joinShell_existing_attaches
    (sid : string) (s : loc) (o : session) (r : request) (st : state) :
  sessions st !! sid = Some s →
  heap st !! s = Some o →
  ∃ st',
    joinShell_request sid r st = Some (None, st')
    ∧ sessions st' = sessions st
    ∧ ctx_term st' = ctx_term st
    ∧ heap st' = <[s := with_party (party_of s r) o]> (heap st)
    ∧ trace st' = trace st ++ join_calls s r
    ∧ s_t (with_party (party_of s r) o) = s_t o
    ∧ s_parties (with_party (party_of s r) o)
      = <[uuid_New (r_answers r) := party_of s r]> (s_parties o).
Proof.
  intros Hsid Hs. eexists. split.
  - unfold joinShell_request. by eapply joinShell_present.
  - by cbn.
Qed.

Lemma without_with_party p o :
  s_parties o !! p_id p = None →
  writers (s_writer o) !! p_id p = None →
  without_party (p_id p) (with_party p o) = o.
Proof.
  intros Hp Hw. destruct o as [id eid [ws] ps t]. cbn in *.
  unfold without_party, with_party, set_writer, set_parties,
    multiWriter_deleteWriter, multiWriter_addWriter. cbn.
  by rewrite !delete_insert_id.
Qed.

(** X6: a party that joins a session and leaves it again, while other
    parties are attached, leaves the table, the session objects and the
    contexts exactly as they were; no terminal is closed, and only the two
    calls of the join stay in the trace. *)
Theorem join_then_leave_restores
    (sid : string) (s : loc) (o : session) (r : request)
    (closed : option error) (st : state) :
  sessions st !! sid = Some s →
  heap st !! s = Some o →
  s_parties o ≠ ∅ →
  s_parties o !! uuid_New (r_answers r) = None →
  writers (s_writer o) !! uuid_New (r_answers r) = None →
  ∃ st1 st2,
    joinShell_request sid r st = Some (None, st1)
    ∧ sessionRegistry_leaveShell sid (uuid_New (r_answers r)) closed st1
      = Some (None, st2)
    ∧ sessions st2 = sessions st
    ∧ heap st2 = heap st
    ∧ ctx_term st2 = ctx_term st
    ∧ trace st2 = trace st ++ join_calls s r.
Proof.
  intros Hsid Hs Hne Hp Hw.
  set (p := party_of s r).
  eexists _, _. split; [unfold joinShell_request; by eapply joinShell_present|].
  split.
  - eapply (leaveShell_others_remain sid s (with_party p o) _ p).
    + done.
    + heap_lookup.
    + cbn. apply lookup_insert_eq.
    + cbn. by rewrite delete_insert_id.
  - unfold_state. split_and!; [done| |done..].
    rewrite list_insert_insert_eq.
    rewrite (without_with_party p o Hp Hw). by apply list_insert_id.
Qed.

(** ** Leaving *)

(** X7: [leaveShell] for an id the table does not hold, or for a party the
    session does not hold, returns the matching not-found error and
    changes nothing: no party is removed, no session is removed and no
    terminal is closed. *)
Theorem leaveShell_not_found_changes_nothing
    (sid pid : string) (closed : option error) (st : state) :
  (sessions st !! sid = None →
   sessionRegistry_leaveShell sid pid closed st
   = Some (Some (session_not_found sid), st))
  ∧ (∀ s o, sessions st !! sid = Some s → heap st !! s = Some o →
            s_parties o !! pid = None →
            sessionRegistry_leaveShell sid pid closed st
            = Some (Some (party_not_found pid), st)).
Proof.
  split.
  - apply leaveShell_absent.
  - intros s o. apply leaveShell_unknown_party.
Qed.

Lemma leaveShell_party_run sid s o pid p closed st :
  registry_inv st →
  sessions st !! sid = Some s →
  heap st !! s = Some o →
  s_parties o !! pid = Some p →
  ∃ t, s_t o = Some t ∧ p_id p = pid ∧ s_id o = sid ∧ p_s p = s
    ∧ sessionRegistry_leaveShell sid pid closed st
      = Some (if decide (delete pid (s_parties o) = ∅) then closed else None,
              if decide (delete pid (s_parties o) = ∅)
              then {| sessions := delete sid (sessions st);
                      heap := <[s := without_party pid o]> (heap st);
                      ctx_term := ctx_term st;
                      trace := trace st ++ [TermClose t] |}
              else set_heap (λ h, <[s := without_party pid o]> h) st).
Proof.
  intros Hinv Hsid Hs Hp.
  destruct (Hinv sid s Hsid) as (o' & Ho' & (Hid & [t Ht] & _ & Hk & _) & Hback & _).
  assert (o' = o) as -> by congruence.
  pose proof (Hk _ _ Hp) as Hpid. cbn in Hpid.
  pose proof (Hback _ _ Hp) as Hps. cbn in Hps.
  exists t. split_and!; [done..|].
  case_decide as Hempty.
  - rewrite <- Hpid in Hempty.
    rewrite (leaveShell_last_party _ _ _ _ _ _ _ _ Hsid Hs Hp Hempty Ht).
    by rewrite Hpid, Hid.
  - rewrite <- Hpid in Hempty.
    rewrite (leaveShell_others_remain _ _ _ _ _ _ _ Hsid Hs Hp Hempty).
    by rewrite Hpid.
Qed.

(** X8: leaving is not repeatable: once [leaveShell] has removed a party, a
    second [leaveShell] for the same party returns a not-found error (for
    the party, or for the session when the party was the last one) and
    changes nothing, so the terminal is not closed a second time. *)
Theorem leaveShell_twice
    (sid pid : string) (s : loc) (o : session) (p : party)
    (closed closed2 : option error) (st : state) :
  registry_inv st →
  sessions st !! sid = Some s →
  heap st !! s = Some o →
  s_parties o !! pid = Some p →
  ∃ res st',
    sessionRegistry_leaveShell sid pid closed st = Some (res, st')
    ∧ sessionRegistry_leaveShell sid pid closed2 st'
      = Some (Some (already_left sid pid o), st').
Proof.
  intros Hinv Hsid Hs Hp.
  destruct (leaveShell_party_run sid s o pid p closed st Hinv Hsid Hs Hp)
    as (t & Ht & Hpid & Hid & Hps & Hrun).
  do 2 eexists. split; [exact Hrun|].
  unfold already_left. case_decide as Hempty.
  - apply leaveShell_absent. cbn. apply lookup_delete_eq.
  - eapply leaveShell_unknown_party; [exact Hsid | heap_lookup |].
    cbn. apply lookup_delete_eq.
Qed.

(** ** What a broadcast reaches *)

Lemma Write_loop_prefix chanWrite ord p st :
  ∃ res k,
    Write_loop chanWrite ord p st
    = Some (res, after_calls (writes_to (take k ord) p) st)
    ∧ (k ≤ length ord)%nat
    ∧ (res.2 = None →
       res = (len p, None) ∧ k = length ord
       ∧ ∀ kw, kw ∈ ord → accepts chanWrite kw.2 p).
Proof.
  revert st. induction ord as [|[id w] rest IH]; intros st.
  - exists (len p, None), 0. cbn. rewrite after_calls_nil.
    split_and!; [done..|]. intros _. split_and!; [done..|].
    intros kw Hkw. by apply elem_of_nil in Hkw.
  - rewrite Write_cons.
    destruct (ioWriter_Write chanWrite w p) as [n [e|]] eqn:Hw.
    + exists (n, Some e), 1. cbn. split_and!; [done | lia | done].
    + destruct (n =? len p)%Z eqn:Hn; cbn [negb].
      * apply Z.eqb_eq in Hn as ->.
        destruct (IH (after_calls [SinkWrite w p] st))
          as (res & k & Hrun & Hk & Hnil).
        exists res, (S k). rewrite Hrun, after_calls_app. cbn.
        split_and!; [done | lia |].
        intros Hres. destruct (Hnil Hres) as (-> & -> & Hall).
        split_and!; [done..|].
        intros kw [->|Hkw]%elem_of_cons; [exact Hw | by apply Hall].
      * exists (n, Some ErrShortWrite), 1. cbn. split_and!; [done | lia | done].
Qed.

(** X9: whatever the sinks answer, [Write] calls [Write(p)] on an initial
    part of the visit, one call per entry visited, and makes no other
    change; it returns a nil error exactly when every registered sink took
    the whole slice without an error, and then the count is [len(p)] and
    the whole visit was written. *)
Theorem multiWriter_Write_nil_iff_all_accept
    (chanWrite : Channel → bytes → Z * option error)
    (t : multiWriter) (range : gmap string ioWriter → list (string * ioWriter))
    (p : bytes) (st : state) :
  let ord := range (writers t) in
  ∃ res k,
    multiWriter_Write chanWrite t range p st
    = Some (res, after_calls (writes_to (take k ord) p) st)
    ∧ (k ≤ length ord)%nat
    ∧ (res.2 = None ↔ ∀ kw, kw ∈ ord → accepts chanWrite kw.2 p)
    ∧ (res.2 = None → res = (len p, None) ∧ k = length ord).
Proof.
  intros ord. unfold multiWriter_Write. fold ord.
  destruct (Write_loop_prefix chanWrite ord p st) as (res & k & Hrun & Hk & Hnil).
  exists res, k. split_and!; [done..| |].
  - split.
    + intros Hres. by destruct (Hnil Hres) as (_ & _ & Hall).
    + intros Hall. rewrite (Write_accepted chanWrite ord p st Hall) in Hrun.
      by injection Hrun as <- _.
  - intros Hres. by destruct (Hnil Hres) as (-> & -> & _).
Qed.

(** X10: once a party has left a session in which others remain,
    [leaveShell] has returned nil without closing the terminal, and no
    later [Write] of the session's broadcaster calls [Write] on a sink of
    that party id. *)
Theorem departed_party_gets_no_output
    (chanWrite : Channel → bytes → Z * option error)
    (sid pid : string) (s : loc) (o : session) (p : party)
    (closed : option error) (st st2 : state)
    (range : gmap string ioWriter → list (string * ioWriter)) (b : bytes) :
  registry_inv st →
  sessions st !! sid = Some s →
  heap st !! s = Some o →
  s_parties o !! pid = Some p →
  delete pid (s_parties o) ≠ ∅ →
  ∃ st' o',
    sessionRegistry_leaveShell sid pid closed st = Some (None, st')
    ∧ sessions st' = sessions st
    ∧ trace st' = trace st
    ∧ heap st' !! s = Some o'
    ∧ s_parties o' = delete pid (s_parties o)
    ∧ (visits (writers (s_writer o')) (range (writers (s_writer o'))) →
       ∃ res k,
         multiWriter_Write chanWrite (s_writer o') range b st2
         = Some (res, after_calls
                        (writes_to (take k (range (writers (s_writer o')))) b) st2)
         ∧ ∀ q, p_id q = pid →
                SinkWrite (Party q) b
                ∉ writes_to (take k (range (writers (s_writer o')))) b).
Proof.
  intros Hinv Hsid Hs Hp Hne.
  destruct (leaveShell_party_run sid s o pid p closed st Hinv Hsid Hs Hp)
    as (t & Ht & Hpid & Hid & Hps & Hrun).
  rewrite decide_False in Hrun by done. rewrite decide_False in Hrun by done.
  destruct (Hinv sid s Hsid) as (o0 & Ho0 & _ & _ & Hsinks).
  assert (o0 = o) as -> by congruence.
  exists (set_heap (λ h, <[s := without_party pid o]> h) st), (without_party pid o).
  split_and!; [done | done | done | heap_lookup | done |].
  intros Hv.
  destruct (Write_loop_prefix chanWrite
              (range (writers (s_writer (without_party pid o)))) b st2)
    as (res & k & Hw & _ & _).
  exists res, k. split; [exact Hw|].
  intros q Hq Hin.
  apply list_elem_of_fmap_1 in Hin as ([id w] & Heq & Hin).
  cbn in Heq. injection Heq as <-.
  apply subseteq_take in Hin.
  apply (visits_elem_of _ _ _ _ Hv) in Hin. cbn in Hin.
  apply lookup_delete_Some in Hin as [Hneq Hin].
  pose proof (Hsinks _ _ Hin) as Hkey. cbn in Hkey. congruence.
Qed.

(** ** Failed starts *)

(** X11: when the command fails to start, [newShell] has only taken the
    terminal and called [run]: it does not close the terminal, registers
    no closer, starts no pump, and the session object it leaves behind,
    outside the table, holds the terminal and no party and no sink. *)
Theorem failed_start_attaches_nothing
    (sid : string) (sconn : ServerConn) (ch : Channel) (c : ctx) (a : answers)
    (t : term) (slots : gmap ctx term) (calls : list event) (err : error)
    (st : state) :
  takes (ctx_term st) c a t slots calls →
  run a = Some err →
  ∃ st' o,
    sessionRegistry_newShell sid sconn ch c a st = Some (Some err, st')
    ∧ trace st' = trace st ++ calls ++ [TermRun t]
    ∧ (calls = [CtxSetTerm c None] ∨ calls = [NewTerm (inl t)])
    ∧ sessions st' = sessions st
    ∧ heap st' = heap st ++ [o]
    ∧ s_t o = Some t
    ∧ s_parties o = ∅
    ∧ writers (s_writer o) = ∅.
Proof.
  intros Ht Hr. do 2 eexists. split; [by eapply newShell_run_failed|].
  cbn. split_and!; [done| |done..].
  destruct Ht; auto.
Qed.

(** ** Closing a party *)

(** X12: in a registry that satisfies the invariant, [Close] of a party
    that is attached to a registered session is [leaveShell] for the id of
    that session and the id of the party; it never returns a not-found
    error: it returns nil while other parties remain and what the
    terminal's [Close] returned when the party was the last one. *)
Theorem party_Close_is_leaveShell
    (sid pid : string) (s : loc) (o : session) (p : party)
    (closed : option error) (st : state) :
  registry_inv st →
  sessions st !! sid = Some s →
  heap st !! s = Some o →
  s_parties o !! pid = Some p →
  party_Close p closed st = sessionRegistry_leaveShell sid pid closed st
  ∧ ∃ st', party_Close p closed st
           = Some (if decide (delete pid (s_parties o) = ∅) then closed else None,
                   st')
           ∧ sessions st' !! sid
             = (if decide (delete pid (s_parties o) = ∅) then None else Some s).
Proof.
  intros Hinv Hsid Hs Hp.
  destruct (leaveShell_party_run sid s o pid p closed st Hinv Hsid Hs Hp)
    as (t & Ht & Hpid & Hid & Hps & Hrun).
  assert (Heq : party_Close p closed st
                = sessionRegistry_leaveShell sid pid closed st).
  { unfold party_Close. rewrite bind_run, Hps, (deref_run _ _ _ Hs).
    by rewrite Hid, Hpid. }
  split; [exact Heq|]. rewrite Heq, Hrun. eexists. split; [done|].
  case_decide; cbn; [apply lookup_delete_eq | done].
Qed.

(** X13: when [newShell] registers a second session under an id that is
    in use, the parties of the first session can no longer leave: [Close]
    of such a party looks the id up, finds the second session, returns a
    party-not-found error and changes nothing, so the first session object
    keeps its terminal, which is never closed this way. *)
Theorem replaced_session_party_cannot_leave
    (sid pid : string) (s : loc) (o : session) (p : party) (r2 : request)
    (closed : option error) (st st' : state) :
  registry_inv st →
  sessions st !! sid = Some s →
  heap st !! s = Some o →
  s_parties o !! pid = Some p →
  uuid_New (r_answers r2) ≠ pid →
  newShell_request sid r2 st = Some (None, st') →
  party_Close p closed st' = Some (Some (party_not_found pid), st')
  ∧ heap st' !! s = Some o
  ∧ sessions st' !! sid = Some (length (heap st))
  ∧ s ≠ length (heap st).
Proof.
  intros Hinv Hsid Hs Hp Hne Hnew.
  destruct (Hinv sid s Hsid) as (o0 & Ho0 & (Hid & _ & _ & Hk & _) & Hback & _).
  assert (o0 = o) as -> by congruence.
  pose proof (Hk _ _ Hp) as Hpid. cbn in Hpid.
  pose proof (Hback _ _ Hp) as Hps. cbn in Hps.
  apply newShell_nil_inv in Hnew as (t & slots & calls & Ht & Hr & ->).
  assert (Hs' : (heap st ++ [started (length (heap st))
                               (newParty (length (heap st)) (r_sconn r2) (r_ch r2)
                                  (r_ctx r2) (uuid_New (r_answers r2)))
                               t (blank_session sid)]) !! s = Some o)
    by (by apply lookup_app_l_Some).
  split_and!.
  - unfold party_Close. rewrite bind_run, Hps.
    erewrite deref_run by exact Hs'. rewrite Hid, Hpid.
    eapply leaveShell_unknown_party; cbn [sessions heap].
    + apply lookup_insert_eq.
    + apply lookup_last_alloc.
    + cbn. by rewrite lookup_insert_ne.
  - exact Hs'.
  - cbn. apply lookup_insert_eq.
  - apply lookup_lt_Some in Hs. lia.
Qed.

(** ** Who gets the exit result *)

(** X14: the exit result is not kept for later: a party that joins after
    [broadcastResult] gets no [sendResult]; the calls are the results to
    the parties present at the broadcast, followed by the two calls of the
    join. *)
Theorem late_joiner_gets_no_result
    (sid : string) (s : loc) (o : session) (res : execResult)
    (range : gmap string party → list (string * party)) (r : request)
    (st : state) :
  sessions st !! sid = Some s →
  heap st !! s = Some o →
  ∃ st1 st2,
    sessionRegistry_broadcastResult sid res range st = Some (None, st1)
    ∧ joinShell_request sid r st1 = Some (None, st2)
    ∧ trace st2
      = trace st ++ results_to (range (s_parties o)) res ++ join_calls s r
    ∧ sessions st2 = sessions st
    ∧ heap st2 = <[s := with_party (party_of s r) o]> (heap st).
Proof.
  intros Hsid Hs. do 2 eexists.
  split; [by eapply registry_broadcastResult_found|].
  split; [unfold joinShell_request; by eapply joinShell_present|].
  unfold_state. split_and!; [by rewrite <- app_assoc | done..].
Qed.

(** X15: a party that has left gets no exit result: after [leaveShell] of
    a party with others remaining, [broadcastResult] calls [sendResult]
    for the remaining parties only, and the visit holds no entry for the
    id that left. *)
Theorem departed_party_gets_no_result
    (sid pid : string) (s : loc) (o : session) (p : party)
    (closed : option error) (res : execResult)
    (range : gmap string party → list (string * party)) (st : state) :
  registry_inv st →
  sessions st !! sid = Some s →
  heap st !! s = Some o →
  s_parties o !! pid = Some p →
  delete pid (s_parties o) ≠ ∅ →
  visits (delete pid (s_parties o)) (range (delete pid (s_parties o))) →
  ∃ st1 st2,
    sessionRegistry_leaveShell sid pid closed st = Some (None, st1)
    ∧ sessionRegistry_broadcastResult sid res range st1 = Some (None, st2)
    ∧ trace st2 = trace st ++ results_to (range (delete pid (s_parties o))) res
    ∧ ∀ q, (pid, q) ∉ range (delete pid (s_parties o)).
Proof.
  intros Hinv Hsid Hs Hp Hne Hv.
  destruct (leaveShell_party_run sid s o pid p closed st Hinv Hsid Hs Hp)
    as (t & Ht & Hpid & Hid & Hps & Hrun).
  rewrite decide_False in Hrun by done. rewrite decide_False in Hrun by done.
  do 2 eexists. split; [exact Hrun|]. split.
  - eapply registry_broadcastResult_found; [exact Hsid | heap_lookup].
  - split; [done|]. intros q Hin.
    apply (visits_elem_of _ _ _ _ Hv) in Hin. by rewrite lookup_delete_eq in Hin.
Qed.

(** ** The properties at concrete inputs *)

Lemma one_session_inv : registry_inv one_session.
Proof.
  apply (newShell_inv "s" 5 6 7 (shell_ok "p1" 3) newSessionRegistry None).
  - apply registry_inv_empty.
  - vm_compute. reflexivity.
Qed.

Lemma join_two_parties :
  joinShell_request "s" request2 one_session = Some (None, two_parties).
Proof. vm_compute. reflexivity. Qed.

Lemma two_parties_inv : registry_inv two_parties.
Proof.
  apply (joinShell_inv "s" 8 9 10 (shell_ok "p2" 4) one_session None).
  - apply one_session_inv.
  - apply join_two_parties.
Qed.

Lemma new_two_ids :
  newShell_request "t" request2 one_session = Some (None, two_ids).
Proof. vm_compute. reflexivity. Qed.

Lemma joined2_others_remain : delete "p2" (s_parties joined2) ≠ ∅.
Proof.
  intros Hempty.
  assert (delete "p2" (s_parties joined2) !! "p1" = None) as Hnone
    by (rewrite Hempty; apply lookup_empty).
  vm_compute in Hnone. discriminate.
Qed.

Lemma registry_invariant_kept_witness : registry_inv two_parties.
Proof.
  apply (registry_invariant_kept (JoinShell "s" request2) one_session two_parties None).
  - apply one_session_inv.
  - apply join_two_parties.
Defined.

(** The calls of [some_calls] from a state in which the context [7]
    carries the terminal [3]: the first call adopts that terminal. *)
Lemma some_calls_adopt :
  fst <$> mapM run_call some_calls inheriting
  = Some [None; None; None; None; Some (External 1)]
  ∧ (λ x, take 2 (trace x.2)) <$> mapM run_call some_calls inheriting
    = Some [CtxSetTerm 7 None; TermRun 3]
  ∧ (λ x, sessions x.2) <$> mapM run_call some_calls inheriting = Some ∅.
Proof. split_and!; vm_compute; reflexivity. Qed.

Lemma registry_calls_never_panic_witness :
  ∃ results st,
    mapM run_call some_calls inheriting = Some (results, st)
    ∧ length results = 5
    ∧ registry_inv st.
Proof.
  apply (registry_calls_never_panic some_calls inheriting).
  apply map_Forall_empty.
Defined.

Lemma other_sessions_untouched_witness :
  sessions two_ids !! "s" = sessions one_session !! "s"
  ∧ ∀ s', sessions one_session !! "s" = Some s' →
          heap two_ids !! s' = heap one_session !! s'.
Proof.
  apply (other_sessions_untouched (NewShell "t" request2) one_session two_ids None "s").
  - apply one_session_inv.
  - apply new_two_ids.
  - discriminate.
Defined.

Lemma joinShell_unknown_id_creates_witness :
  sessionRegistry_joinShell "t" 8 9 10 (shell_ok "p2" 4) one_session
  = sessionRegistry_newShell "t" 8 9 10 (shell_ok "p2" 4) one_session.
Proof.
  apply (joinShell_unknown_id_creates "t" 8 9 10 (shell_ok "p2" 4) one_session).
  reflexivity.
Defined.

Lemma joinShell_existing_attaches_witness :
  ∃ st', joinShell_request "s" request2 one_session = Some (None, st')
         ∧ sessions st' = sessions one_session
         ∧ ctx_term st' = ctx_term one_session.
Proof.
  destruct (joinShell_existing_attaches "s" 0 started1 request2 one_session)
    as (st' & H1 & H2 & H3 & _); [reflexivity..|].
  by exists st'.
Defined.

Lemma join_then_leave_restores_witness :
  ∃ st1 st2,
    joinShell_request "s" request2 one_session = Some (None, st1)
    ∧ sessionRegistry_leaveShell "s" "p2" (Some (External 1)) st1 = Some (None, st2)
    ∧ sessions st2 = sessions one_session
    ∧ heap st2 = heap one_session
    ∧ ctx_term st2 = ctx_term one_session
    ∧ trace st2 = trace one_session ++ join_calls 0 request2.
Proof.
  apply (join_then_leave_restores "s" 0 started1 request2 (Some (External 1))
           one_session).
  - reflexivity.
  - reflexivity.
  - apply insert_non_empty.
  - vm_compute. reflexivity.
  - vm_compute. reflexivity.
Defined.

Lemma leaveShell_not_found_changes_nothing_witness :
  sessionRegistry_leaveShell "t" "p1" None one_session
  = Some (Some (session_not_found "t"), one_session)
  ∧ sessionRegistry_leaveShell "s" "p9" None one_session
    = Some (Some (party_not_found "p9"), one_session).
Proof.
  split.
  - apply (leaveShell_not_found_changes_nothing "t" "p1" None one_session).
    reflexivity.
  - apply (leaveShell_not_found_changes_nothing "s" "p9" None one_session)
      with (s := 0) (o := started1); reflexivity.
Defined.

Lemma leaveShell_twice_witness :
  ∃ res st',
    sessionRegistry_leaveShell "s" "p2" None two_parties = Some (res, st')
    ∧ sessionRegistry_leaveShell "s" "p2" None st'
      = Some (Some (already_left "s" "p2" joined2), st').
Proof.
  apply (leaveShell_twice "s" "p2" 0 joined2 joiner2 None None two_parties).
  - apply two_parties_inv.
  - reflexivity.
  - reflexivity.
  - vm_compute. reflexivity.
Defined.

Lemma departed_party_gets_no_output_witness :
  ∃ st' o',
    sessionRegistry_leaveShell "s" "p2" None two_parties = Some (None, st')
    ∧ sessions st' = sessions two_parties
    ∧ trace st' = trace two_parties
    ∧ heap st' !! 0 = Some o'
    ∧ s_parties o' = delete "p2" (s_parties joined2).
Proof.
  destruct (departed_party_gets_no_output chan_ok "s" "p2" 0 joined2 joiner2 None
              two_parties newSessionRegistry map_to_list three_bytes)
    as (st' & o' & H1 & H2 & H3 & H4 & H5 & _).
  - apply two_parties_inv.
  - reflexivity.
  - reflexivity.
  - vm_compute. reflexivity.
  - apply joined2_others_remain.
  - by exists st', o'.
Defined.

Lemma failed_start_attaches_nothing_witness :
  ∃ st' o,
    sessionRegistry_newShell "s" 5 6 7 shell_fails newSessionRegistry
    = Some (Some (External 2), st')
    ∧ trace st' = [NewTerm (inl 4); TermRun 4]
    ∧ heap st' = [o]
    ∧ s_t o = Some 4
    ∧ s_parties o = ∅
    ∧ writers (s_writer o) = ∅.
Proof.
  destruct (failed_start_attaches_nothing "s" 5 6 7 shell_fails 4 ∅
              [NewTerm (inl 4)] (External 2) newSessionRegistry)
    as (st' & o & H1 & H2 & _ & _ & H3 & H4 & H5 & H6).
  - by apply takes_allocated.
  - reflexivity.
  - by exists st', o.
Defined.

Lemma party_Close_is_leaveShell_witness :
  party_Close joiner2 None two_parties
  = sessionRegistry_leaveShell "s" "p2" None two_parties.
Proof.
  apply (party_Close_is_leaveShell "s" "p2" 0 joined2 joiner2 None two_parties).
  - apply two_parties_inv.
  - reflexivity.
  - reflexivity.
  - vm_compute. reflexivity.
Defined.

Lemma replaced_session_party_cannot_leave_witness :
  party_Close party1 None two_sessions
  = Some (Some (party_not_found "p1"), two_sessions).
Proof.
  apply (replaced_session_party_cannot_leave "s" "p1" 0 started1 party1 request2
           None one_session two_sessions).
  - apply one_session_inv.
  - reflexivity.
  - reflexivity.
  - vm_compute. reflexivity.
  - discriminate.
  - vm_compute. reflexivity.
Defined.

Lemma late_joiner_gets_no_result_witness :
  ∃ st1 st2,
    sessionRegistry_broadcastResult "s" exit0 map_to_list one_session
    = Some (None, st1)
    ∧ joinShell_request "s" request2 st1 = Some (None, st2)
    ∧ trace st2
      = trace one_session ++ [CtxSendResult 7 exit0] ++ join_calls 0 request2.
Proof.
  destruct (late_joiner_gets_no_result "s" 0 started1 exit0 map_to_list request2
              one_session) as (st1 & st2 & H1 & H2 & H3 & _); [reflexivity..|].
  exists st1, st2. split_and!; [exact H1 | exact H2 | exact H3].
Defined.

Lemma departed_party_gets_no_result_witness :
  ∃ st1 st2,
    sessionRegistry_leaveShell "s" "p2" None two_parties = Some (None, st1)
    ∧ sessionRegistry_broadcastResult "s" exit0 map_to_list st1 = Some (None, st2)
    ∧ trace st2 = trace two_parties ++ [CtxSendResult 7 exit0].
Proof.
  destruct (departed_party_gets_no_result "s" "p2" 0 joined2 joiner2 None exit0
              map_to_list two_parties) as (st1 & st2 & H1 & H2 & H3 & _).
  - apply two_parties_inv.
  - reflexivity.
  - reflexivity.
  - vm_compute. reflexivity.
  - apply joined2_others_remain.
  - apply visits_map_to_list.
  - exists st1, st2. split_and!; [exact H1 | exact H2 | exact H3].
Defined.

Lemma session_Write_reaches_capture_and_parties_witness :
  SinkWrite (Buffer 0) three_bytes
    ∈ writes_to (map_to_list (writers (s_writer joined2))) three_bytes
  ∧ SinkWrite (Party joiner2) three_bytes
    ∈ writes_to (map_to_list (writers (s_writer joined2))) three_bytes.
Proof.
  destruct (session_Write_reaches_capture_and_parties chan_ok 0 "s" 3 request1
              [request2] map_to_list three_bytes newSessionRegistry)
    as (_ & Hcap & Hparties).
  - apply (bool_decide_unpack _). vm_compute. reflexivity.
  - apply visits_map_to_list.
  - intros [id [b|q]] _; reflexivity.
  - split; [exact Hcap|]. apply (Hparties "p2"). vm_compute. reflexivity.
Defined.
